(** * SudokuForge: the backtracking engine, embedded and verified

    A shallow embedding of [src/algorithms] (types, solver, generator,
    validation).  Boards are JavaScript arrays of arrays of numbers; they
    are modelled as lists of lists of integers, read with stdpp's list
    lookup.  In-place updates of the mutable grid are modelled by explicit
    state passing: every function that writes to its grid returns the grid
    it leaves behind.  [Math.random] is modelled by an explicit source of
    draws that is threaded through the generator. *)

From stdpp Require Import base numbers option list strings pretty.
From Stdlib Require QArith.
From Stdlib Require Import Ascii.

Local Open Scope Z_scope.

(** ** Board model ([types.ts]) *)

(** [CellValue = 0 | 1 | ... | 9]; the model keeps the carrier of JavaScript
    numbers that the code compares with [===], restricted to integers. *)
Abbreviation CellValue := Z (only parsing).

Record Position : Type := mkPosition { row : nat; col : nat }.

#[global] Instance Position_eq_dec : EqDecision Position.
Proof. solve_decision. Defined.

Abbreviation Board := (list (list CellValue)) (only parsing).
Abbreviation MutableBoard := (list (list CellValue)) (only parsing).

Definition BLOCK_SIZE : nat := 3.
Definition GRID_SIZE : nat := 9.

Inductive Difficulty : Type := easy | medium | hard.

(** [Array.from({length: 9}, () => Array.from({length: 9}, () => 0))] *)
Definition createEmptyBoard : MutableBoard :=
  replicate GRID_SIZE (replicate GRID_SIZE 0).

(** [board.map((row) => [...row])]: on values, a deep copy is the same
    list of lists; what the copy means for the store is modelled in
    [Module Heap] below. *)
Definition cloneBoard (board : Board) : MutableBoard :=
  map (fun r => r) board.

Definition freezeBoard (board : MutableBoard) : Board :=
  map (fun r => r) board.

(** [board[r][c]]: [None] stands for [undefined] (a column out of range).
    A row out of range raises a [TypeError] in the source; every caller
    in the repository passes 9x9 grids, where all reads are in range. *)
Definition cell (board : Board) (r c : nat) : option CellValue :=
  match board !! r with
  | Some cells => cells !! c
  | None => None
  end.

(** [board[r][c] === value] *)
Definition cellIs (board : Board) (r c : nat) (value : CellValue) : bool :=
  bool_decide (cell board r c = Some value).

(** [mutable[r][c] = value], for a position inside the grid. *)
Definition setCell (board : MutableBoard) (r c : nat) (value : CellValue)
  : MutableBoard :=
  match board !! r with
  | Some cells => <[r := <[c := value]> cells]> board
  | None => board
  end.

(** The order in which the nested loops
    [for row in 0..8 { for col in 0..8 { ... } }] visit the grid. *)
Definition allPositions : list Position :=
  flat_map (fun r => map (fun c => mkPosition r c) (seq 0 GRID_SIZE))
           (seq 0 GRID_SIZE).

(** ** Placement validator and solver ([solver.ts]) *)

Definition findEmptyCell (board : Board) : option Position :=
  List.find (fun p => cellIs board (row p) (col p) 0) allPositions.

Definition isValidPlacement (board : Board) (row col : nat)
    (value : CellValue) : bool :=
  if bool_decide (value = 0) then true
  else if existsb (fun c => bool_decide (c <> col) && cellIs board row c value)
                  (seq 0 GRID_SIZE) then false
  else if existsb (fun r => bool_decide (r <> row) && cellIs board r col value)
                  (seq 0 GRID_SIZE) then false
  else
    let blockRow := (row / BLOCK_SIZE * BLOCK_SIZE)%nat in
    let blockCol := (col / BLOCK_SIZE * BLOCK_SIZE)%nat in
    if existsb (fun r =>
         existsb (fun c =>
           (bool_decide (r <> row) || bool_decide (c <> col))
           && cellIs board r c value)
           (seq blockCol BLOCK_SIZE))
         (seq blockRow BLOCK_SIZE)
    then false
    else true.

(** The body of the double loop of [isBoardComplete] at one position:
    [value === 0] or an invalid placement makes the function return
    [false].  Every position of a 9x9 grid has a cell. *)
Definition cellSettled (board : Board) (p : Position) : bool :=
  match cell board (row p) (col p) with
  | Some value =>
      negb (bool_decide (value = 0))
      && isValidPlacement board (row p) (col p) value
  | None => false
  end.

Definition isBoardComplete (board : Board) : bool :=
  match findEmptyCell board with
  | Some _ => false
  | None => forallb (cellSettled board) allPositions
  end.

Definition digits : list CellValue := [1; 2; 3; 4; 5; 6; 7; 8; 9].

(** Recursion depth: every recursive call of the three traversals happens
    after one more empty cell of the 81 was filled.  The embedding gives
    the recursion this much fuel; [None] means the fuel ran out, which the
    theorems below show never happens. *)
Definition maxDepth : nat := S (GRID_SIZE * GRID_SIZE).

Section SolveLoop.
(** The [for (const value of digits)] loop of [solveBacktrack], with the
    recursive call as a parameter.  The grid is threaded through: a
    failed recursive call hands back the grid it left, and the loop then
    executes [mutable[row][col] = 0]. *)
Variable recur : MutableBoard -> option (bool * MutableBoard).
Variables r c : nat.

Fixpoint solveDigits (ds : list CellValue) (mutable : MutableBoard)
  : option (bool * MutableBoard) :=
  match ds with
  | [] => Some (false, mutable)
  | value :: ds' =>
      if negb (isValidPlacement mutable r c value)
      then solveDigits ds' mutable
      else
        match recur (setCell mutable r c value) with
        | None => None
        | Some (true, m') => Some (true, m')
        | Some (false, m') => solveDigits ds' (setCell m' r c 0)
        end
  end.
End SolveLoop.

Fixpoint solveBacktrack (fuel : nat) (mutable : MutableBoard)
  : option (bool * MutableBoard) :=
  match fuel with
  | O => None
  | S fuel' =>
      match findEmptyCell mutable with
      | None => Some (true, mutable)
      | Some p =>
          solveDigits (solveBacktrack fuel') (row p) (col p) digits mutable
      end
  end.

(** [solve]: the inner option is the source's [MutableBoard | null]. *)
Definition solve (board : Board) : option (option MutableBoard) :=
  let mutable := cloneBoard board in
  match solveBacktrack maxDepth mutable with
  | None => None
  | Some (true, m') => Some (Some m')
  | Some (false, _) => Some None
  end.

Section CountLoop.
(** The loop of [countBacktrack]; the state is the grid [m] and the
    captured variable [count]. *)
Variable recur : MutableBoard * Z -> option (MutableBoard * Z).
Variable limit : Z.
Variables r c : nat.

Fixpoint countDigits (ds : list CellValue) (st : MutableBoard * Z)
  : option (MutableBoard * Z) :=
  match ds with
  | [] => Some st
  | value :: ds' =>
      let '(m, count) := st in
      if negb (isValidPlacement m r c value)
      then countDigits ds' st
      else
        match recur (setCell m r c value, count) with
        | None => None
        | Some (m', count') =>
            if bool_decide (count' >= limit) then Some (m', count')
            else countDigits ds' (setCell m' r c 0, count')
        end
  end.
End CountLoop.

Fixpoint countBacktrack (fuel : nat) (limit : Z) (st : MutableBoard * Z)
  : option (MutableBoard * Z) :=
  match fuel with
  | O => None
  | S fuel' =>
      let '(m, count) := st in
      if bool_decide (count >= limit) then Some st
      else
        match findEmptyCell m with
        | None => Some (m, count + 1)
        | Some p =>
            countDigits (countBacktrack fuel' limit) limit (row p) (col p)
                        digits st
        end
  end.

Definition countSolutions (board : Board) (limit : Z) : option Z :=
  let mutable := cloneBoard board in
  match countBacktrack maxDepth limit (mutable, 0) with
  | None => None
  | Some (_, count) => Some count
  end.

Definition hasUniqueSolution (board : Board) : option bool :=
  match countSolutions board 2 with
  | None => None
  | Some n => Some (bool_decide (n = 1))
  end.

(** ** Validation ([validation.ts]) *)

(** The test of [getConflicts] at one position:
    [value !== 0 && !isValidPlacement(board, row, col, value)].  Every
    position of a 9x9 grid has a cell. *)
Definition inConflict (board : Board) (p : Position) : bool :=
  match cell board (row p) (col p) with
  | Some value =>
      negb (bool_decide (value = 0))
      && negb (isValidPlacement board (row p) (col p) value)
  | None => false
  end.

Definition getConflicts (board : Board) : list Position :=
  List.filter (inConflict board) allPositions.

Definition isValidPartialBoard (board : Board) : bool :=
  bool_decide (length (getConflicts board) = 0%nat).

(** ** Generator ([generator.ts]) *)

(** [Math.random]: the source of randomness is an arbitrary sequence of
    draws together with the number of draws used so far; the draw
    [Math.floor(Math.random() * n)] is some index below [n]. *)
Record Rng : Type := mkRng { draws : nat -> nat; used : nat }.

Definition randomBelow (n : nat) (g : Rng) : nat * Rng :=
  ((draws g (used g)) mod n, mkRng (draws g) (S (used g)))%nat.

(** [[arr[i], arr[j]] = [arr[j], arr[i]]] *)
Definition swap {A : Type} (arr : list A) (i j : nat) : list A :=
  match arr !! i, arr !! j with
  | Some x, Some y => <[j := x]> (<[i := y]> arr)
  | _, _ => arr
  end.

(** The Fisher-Yates loop [for (i = arr.length - 1; i > 0; i--)]. *)
Fixpoint shuffleFrom {A : Type} (i : nat) (arr : list A) (g : Rng)
  : list A * Rng :=
  match i with
  | O => (arr, g)
  | S i' =>
      let '(j, g') := randomBelow (i + 1) g in
      shuffleFrom i' (swap arr i j) g'
  end.

Definition shuffle {A : Type} (arr : list A) (g : Rng) : list A * Rng :=
  shuffleFrom (length arr - 1) arr g.

Definition GIVENS_BY_DIFFICULTY (d : Difficulty) : Z :=
  match d with
  | easy => 42
  | medium => 34
  | hard => 26
  end.

(** The scan of [fillCompleteGrid]: cells with [mutable[row][col] !== 0]
    are skipped by [continue]; the first other cell is filled. *)
Definition firstUnfilled (mutable : MutableBoard) : option Position :=
  List.find (fun p => negb (negb (cellIs mutable (row p) (col p) 0)))
            allPositions.

Section FillLoop.
Variable recur :
  MutableBoard * Rng -> option (bool * (MutableBoard * Rng)).
Variables r c : nat.

Fixpoint fillDigits (ds : list CellValue) (st : MutableBoard * Rng)
  : option (bool * (MutableBoard * Rng)) :=
  match ds with
  | [] => Some (false, st)
  | value :: ds' =>
      let '(m, g) := st in
      if negb (isValidPlacement m r c value)
      then fillDigits ds' st
      else
        match recur (setCell m r c value, g) with
        | None => None
        | Some (true, st') => Some (true, st')
        | Some (false, (m', g')) => fillDigits ds' (setCell m' r c 0, g')
        end
  end.
End FillLoop.

Fixpoint fillCompleteGrid (fuel : nat) (st : MutableBoard * Rng)
  : option (bool * (MutableBoard * Rng)) :=
  match fuel with
  | O => None
  | S fuel' =>
      let '(mutable, g) := st in
      match firstUnfilled mutable with
      | None => Some (true, st)
      | Some p =>
          let '(ds, g') := shuffle digits g in
          fillDigits (fillCompleteGrid fuel') (row p) (col p) ds (mutable, g')
      end
  end.

(** The boolean returned by [fillCompleteGrid] is dropped, as in the
    source. *)
Definition generateFullGrid (g : Rng) : option (MutableBoard * Rng) :=
  let board := createEmptyBoard in
  match fillCompleteGrid maxDepth (board, g) with
  | None => None
  | Some (_, st) => Some st
  end.

(** The loop of [removeCellsKeepingUniqueSolution] over the shuffled
    positions.  A position without a cell cannot occur on the 9x9 grid the
    generator passes; the loop is then modelled as stopping. *)
Fixpoint removeLoop (targetGivens : Z) (ps : list Position)
    (board : MutableBoard) (givensCount : Z) : option MutableBoard :=
  match ps with
  | [] => Some board
  | p :: ps' =>
      if bool_decide (givensCount <= targetGivens) then Some board
      else
        match cell board (row p) (col p) with
        | None => Some board
        | Some value =>
            let board1 := setCell board (row p) (col p) 0 in
            match countSolutions board1 2 with
            | None => None
            | Some solutions =>
                if bool_decide (solutions = 1)
                then removeLoop targetGivens ps' board1 (givensCount - 1)
                else removeLoop targetGivens ps'
                       (setCell board1 (row p) (col p) value) givensCount
            end
        end
  end.

Definition removeCellsKeepingUniqueSolution (board : MutableBoard)
    (targetGivens : Z) (g : Rng) : option (MutableBoard * Rng) :=
  let '(positions, g') := shuffle allPositions g in
  let givensCount := Z.of_nat (GRID_SIZE * GRID_SIZE) in
  match removeLoop targetGivens positions board givensCount with
  | None => None
  | Some board' => Some (board', g')
  end.

Record GeneratedPuzzle : Type :=
  mkGeneratedPuzzle { puzzle : Board; solution : Board }.

Definition generatePuzzle (difficulty : Difficulty) (g : Rng)
  : option (GeneratedPuzzle * Rng) :=
  match generateFullGrid g with
  | None => None
  | Some (sol, g1) =>
      let puz := cloneBoard sol in
      let targetGivens := GIVENS_BY_DIFFICULTY difficulty in
      match removeCellsKeepingUniqueSolution puz targetGivens g1 with
      | None => None
      | Some (puz', g2) =>
          Some (mkGeneratedPuzzle (freezeBoard puz') (freezeBoard sol), g2)
      end
  end.

(** ** Untyped input ([validation.ts]) *)

(** A JavaScript number: a finite value (doubles are rationals), or one of
    the three special values. *)
Inductive JSNumber : Type :=
| Finite (q : QArith_base.Q)
| NaN
| PosInfinity
| NegInfinity.

(** The values an [unknown] argument can hold. *)
#[local] Unset Elimination Schemes.
Inductive JSValue : Type :=
| JSUndefined
| JSNull
| JSBool (b : bool)
| JSNum (n : JSNumber)
| JSString (s : string)
| JSArray (elems : list JSValue)
| JSObject (fields : list (string * JSValue)).
#[local] Set Elimination Schemes.

(** [x < k] and [x > k] on numbers; every comparison with [NaN] is false. *)
Definition numLt (x : JSNumber) (k : Z) : bool :=
  match x with
  | Finite q => negb (QArith_base.Qle_bool (QArith_base.inject_Z k) q)
  | NegInfinity => true
  | NaN | PosInfinity => false
  end.

Definition numGt (x : JSNumber) (k : Z) : bool :=
  match x with
  | Finite q => negb (QArith_base.Qle_bool q (QArith_base.inject_Z k))
  | PosInfinity => true
  | NaN | NegInfinity => false
  end.

(** [typeof cell !== 'number' || cell < 0 || cell > 9] *)
Definition rejectsCell (cell : JSValue) : bool :=
  match cell with
  | JSNum n => numLt n 0 || numGt n 9
  | _ => true
  end.

(** The body of the outer loop: [false] stands for [return false]. *)
Definition acceptsRow (r : JSValue) : bool :=
  match r with
  | JSArray cells =>
      if negb (bool_decide (length cells = GRID_SIZE)) then false
      else negb (existsb rejectsCell cells)
  | _ => false
  end.

Definition isValidBoardShape (board : JSValue) : bool :=
  match board with
  | JSArray rows =>
      if negb (bool_decide (length rows = GRID_SIZE)) then false
      else forallb acceptsRow rows
  | _ => false
  end.

(** ** The store: boards as shared arrays *)

(** JavaScript arrays are objects with identity: a board is an array of
    references to row arrays, and [m[r][c] = v] writes into the row array
    that [m[r]] refers to, whoever else holds that reference.  This module
    models the store, and [cloneBoard], [solveBacktrack] and [solve] as
    the programs on the store that they are; the grid a board reference
    denotes is read off the store by [readBoard]. *)
Module Heap.

Inductive object : Type :=
| Rows (rows : list nat)
| Cells (cells : list CellValue).

(** A store is the list of the objects allocated so far; a reference is
    an index into it. *)
Abbreviation heap := (list object) (only parsing).

Definition alloc (h : heap) (o : object) : nat * heap :=
  (length h, h ++ [o]).

Definition readRow (h : heap) (l : nat) : option (list CellValue) :=
  match h !! l with
  | Some (Cells cells) => Some cells
  | _ => None
  end.

(** The grid that the board reference [board] denotes in [h]. *)
Definition readBoard (h : heap) (board : nat) : option Board :=
  match h !! board with
  | Some (Rows rows) => mapM (readRow h) rows
  | _ => None
  end.

(** [board.map((row) => [...row])]: one fresh array per row, in order,
    then the fresh outer array. *)
Fixpoint copyRows (h : heap) (rows : list nat)
  : option (list nat * heap) :=
  match rows with
  | [] => Some ([], h)
  | r :: rows' =>
      match readRow h r with
      | None => None
      | Some cells =>
          let '(l, h1) := alloc h (Cells cells) in
          match copyRows h1 rows' with
          | None => None
          | Some (ls, h2) => Some (l :: ls, h2)
          end
      end
  end.

Definition cloneBoard (h : heap) (board : nat) : option (nat * heap) :=
  match h !! board with
  | Some (Rows rows) =>
      match copyRows h rows with
      | None => None
      | Some (ls, h1) => Some (alloc h1 (Rows ls))
      end
  | _ => None
  end.

(** [m[r][c] = value], for a position inside the grid. *)
Definition writeCell (h : heap) (m r c : nat) (value : CellValue) : heap :=
  match h !! m with
  | Some (Rows rows) =>
      match rows !! r with
      | Some l =>
          match h !! l with
          | Some (Cells cells) => <[l := Cells (<[c := value]> cells)]> h
          | _ => h
          end
      | None => h
      end
  | _ => h
  end.

Section SolveLoop.
Variable recur : heap -> option (bool * heap).
Variables m r c : nat.

Fixpoint solveDigits (ds : list CellValue) (h : heap)
  : option (bool * heap) :=
  match ds with
  | [] => Some (false, h)
  | value :: ds' =>
      match readBoard h m with
      | None => None
      | Some grid =>
          if negb (isValidPlacement grid r c value)
          then solveDigits ds' h
          else
            match recur (writeCell h m r c value) with
            | None => None
            | Some (true, h') => Some (true, h')
            | Some (false, h') => solveDigits ds' (writeCell h' m r c 0)
            end
      end
  end.
End SolveLoop.

Fixpoint solveBacktrack (fuel : nat) (m : nat) (h : heap)
  : option (bool * heap) :=
  match fuel with
  | O => None
  | S fuel' =>
      match readBoard h m with
      | None => None
      | Some grid =>
          match findEmptyCell grid with
          | None => Some (true, h)
          | Some p =>
              solveDigits (solveBacktrack fuel' m) m (row p) (col p)
                          digits h
          end
      end
  end.

(** [solve]: the result is the reference to the solved copy, or [null];
    the store after the call comes with it. *)
Definition solve (h : heap) (board : nat) : option (option nat * heap) :=
  match cloneBoard h board with
  | None => None
  | Some (mutable, h1) =>
      match solveBacktrack maxDepth mutable h1 with
      | None => None
      | Some (true, h2) => Some (Some mutable, h2)
      | Some (false, h2) => Some (None, h2)
      end
  end.

(** The board reference [m] owns the row arrays [ls], which hold the
    grid [grid]. *)
Definition Rep (h : heap) (m : nat) (ls : list nat) (grid : Board) : Prop :=
  h !! m = Some (Rows ls) /\ NoDup ls
  /\ Forall2 (fun l cells => h !! l = Some (Cells cells)) ls grid.

End Heap.

(** ** The grid component ([SudokuGrid.tsx]) *)

Module SudokuGrid.

(** [!solution] is true for [null] only; [v !== 0 && solution[row][col]
    !== v] compares the two reads, where [None] is [undefined]. *)
Definition isMistake (board : Board) (solution : option Board)
    (row col : nat) : bool :=
  match solution with
  | None => false
  | Some sol =>
      let v := cell board row col in
      negb (bool_decide (v = Some 0))
      && negb (bool_decide (cell sol row col = v))
  end.

Definition sameBlock (r1 c1 r2 c2 : nat) : bool :=
  bool_decide (r1 / BLOCK_SIZE = r2 / BLOCK_SIZE)%nat
  && bool_decide (c1 / BLOCK_SIZE = c2 / BLOCK_SIZE)%nat.

Definition blockIndex (row col : nat) : nat :=
  (row / BLOCK_SIZE * 3 + col / BLOCK_SIZE)%nat.

End SudokuGrid.

(** ** The game page ([page.tsx]) *)

Module Page.

Definition MAX_MISTAKES : Z := 3.
Definition MAX_HINTS : Z := 3.

Definition buildGivenMask (puzzle : Board) : list (list bool) :=
  map (fun r => map (fun c => negb (bool_decide (c = 0))) r) puzzle.

Definition copyBoard (board : Board) : Board :=
  map (fun r => r) board.

(** [String(n).padStart(target, pad)] for a one-character pad. *)
Definition padStart (target : nat) (pad : ascii) (s : string) : string :=
  String.append
    (String.string_of_list_ascii (replicate (target - String.length s) pad)) s.

(** [seconds] is the timer, a count of seconds. *)
Definition formatTime (seconds : N) : string :=
  let m := (seconds / 60)%N in
  let s := (seconds mod 60)%N in
  String.append (padStart 2 "0"%char (pretty m))
    (String.append ":" (padStart 2 "0"%char (pretty s))).

(** [board[r][c] === value] for indices that are JavaScript numbers: a
    negative index reads [undefined]. *)
Definition cellIsAt (board : Board) (r c : Z) (value : CellValue) : bool :=
  bool_decide (0 <= r) && bool_decide (0 <= c)
  && cellIs board (Z.to_nat r) (Z.to_nat c) value.

(** The step [c++; if (c > 8) { c = 0; r++ }; if (r > 8) r = 0]. *)
Definition advance (rc : Z * Z) : Z * Z :=
  let '(r, c) := rc in
  let c := c + 1 in
  let '(r, c) := if bool_decide (c > 8) then (r + 1, 0) else (r, c) in
  let r := if bool_decide (r > 8) then 0 else r in
  (r, c).

(** The loop [for (let i = 0; i < 81; i++)], [i] iterations left. *)
Fixpoint scanCells (board : Board) (i : nat) (rc : Z * Z)
  : option Position :=
  match i with
  | O => None
  | S i' =>
      if cellIsAt board rc.1 rc.2 0
      then Some (mkPosition (Z.to_nat rc.1) (Z.to_nat rc.2))
      else scanCells board i' (advance rc)
  end.

Definition findNextEmptyCell (board : Board) (fromRow fromCol : Z)
  : option Position :=
  let r := fromRow in
  let c := fromCol + 1 in
  let '(r, c) := if bool_decide (c > 8) then (r + 1, 0) else (r, c) in
  let r := if bool_decide (r > 8) then 0 else r in
  scanCells board 81 (r, c).

Definition findFirstEmptyCell (board : Board) : option Position :=
  findNextEmptyCell board 0 (-1).

(** The state of the page that the game handlers read and set (the
    [useState] variables; the timer, the theme and the flags of the
    display are left out, no handler below reads them). *)
Record State : Type := mkState {
  solution : option Board;
  givenMask : list (list bool);
  board : Board;
  selectedCell : option Position;
  undoStack : list Board;
  redoStack : list Board;
  mistakes : Z;
  hintsLeft : Z
}.

(** [givenMask[row]?.[col]] as a condition. *)
Definition isGiven (mask : list (list bool)) (row col : nat) : bool :=
  match mask !! row with
  | Some r => default false (r !! col)
  | None => false
  end.

Definition maxMistakesReached (st : State) : bool :=
  bool_decide (mistakes st >= MAX_MISTAKES).

(** [arr[arr.length - 1]] and [arr.slice(0, -1)] *)
Definition lastOf {A : Type} (arr : list A) : option A := last arr.
Definition dropLast {A : Type} (arr : list A) : list A :=
  take (length arr - 1) arr.

(** The state the page sets when a puzzle arrives ([fetchPuzzle]). *)
Definition startGame (puzzle sol : Board) : State :=
  mkState (Some sol) (buildGivenMask puzzle) (copyBoard puzzle) None
          [] [] 0 MAX_HINTS.

Definition handleCellChange (st : State) (row col : nat)
    (value : CellValue) : State :=
  if isGiven (givenMask st) row col then st
  else if maxMistakesReached st && negb (bool_decide (value = 0)) then st
  else
    let prev := board st in
    let next := setCell (map (fun r => r) prev) row col value in
    let wrong :=
      negb (bool_decide (value = 0))
      && match solution st with
         | Some sol => negb (cellIs sol row col value)
         | None => true
         end in
    mkState (solution st) (givenMask st) next (selectedCell st)
            (undoStack st ++ [copyBoard prev]) []
            (if wrong then Z.min (mistakes st + 1) MAX_MISTAKES
             else mistakes st)
            (hintsLeft st).

Definition handleUndo (st : State) : State :=
  match lastOf (undoStack st) with
  | None => st
  | Some prev =>
      mkState (solution st) (givenMask st) (copyBoard prev)
              (selectedCell st) (dropLast (undoStack st))
              (redoStack st ++ [copyBoard (board st)])
              (mistakes st) (hintsLeft st)
  end.

Definition handleRedo (st : State) : State :=
  match lastOf (redoStack st) with
  | None => st
  | Some next =>
      mkState (solution st) (givenMask st) (copyBoard next)
              (selectedCell st) (undoStack st ++ [copyBoard (board st)])
              (dropLast (redoStack st))
              (mistakes st) (hintsLeft st)
  end.

Definition handleErase (st : State) : State :=
  match selectedCell st with
  | None => st
  | Some sel =>
      if isGiven (givenMask st) (row sel) (col sel) then st
      else
        mkState (solution st) (givenMask st)
                (setCell (map (fun r => r) (board st)) (row sel) (col sel) 0)
                (selectedCell st) (undoStack st ++ [copyBoard (board st)])
                [] (mistakes st) (hintsLeft st)
  end.

(** [next[row][col] = solution[row][col]]: on a 9x9 solution the read
    yields a cell. *)
Definition handleHint (st : State) : State :=
  if bool_decide (hintsLeft st <= 0) then st
  else
    match selectedCell st, solution st with
    | Some sel, Some sol =>
        if isGiven (givenMask st) (row sel) (col sel) then st
        else if negb (cellIs (board st) (row sel) (col sel) 0) then st
        else
          match cell sol (row sel) (col sel) with
          | None => st
          | Some v =>
              mkState (solution st) (givenMask st)
                      (setCell (map (fun r => r) (board st))
                               (row sel) (col sel) v)
                      (selectedCell st)
                      (undoStack st ++ [copyBoard (board st)]) []
                      (mistakes st) (hintsLeft st - 1)
          end
    | _, _ => st
    end.

Definition handleNumberPad (st : State) (digit : CellValue) : State :=
  match selectedCell st with
  | None => st
  | Some sel =>
      if maxMistakesReached st then st
      else handleCellChange st (row sel) (col sel) digit
  end.

Inductive Key : Type := ArrowLeft | ArrowRight | ArrowUp | ArrowDown | Tab.

(** The updates of the selection in [onKeyDown], for a key press that
    passes its guards (a puzzle is loaded, the game is not won, the focus
    is not in a text field); [Math.max(0, n - 1)] on a grid index is the
    truncated predecessor. *)
Definition onKeyDown (st : State) (key : Key) : State :=
  let move (f : Position -> Position) :=
    match selectedCell st with
    | Some pos => Some (f pos)
    | None => Some (mkPosition 0 0)
    end in
  let sel :=
    match key with
    | ArrowLeft =>
        move (fun pos => mkPosition (row pos) (Nat.max 0 (col pos - 1)))
    | ArrowRight =>
        move (fun pos => mkPosition (row pos) (Nat.min 8 (col pos + 1)))
    | ArrowUp =>
        move (fun pos => mkPosition (Nat.max 0 (row pos - 1)) (col pos))
    | ArrowDown =>
        move (fun pos => mkPosition (Nat.min 8 (row pos + 1)) (col pos))
    | Tab =>
        let next :=
          match selectedCell st with
          | Some sel =>
              findNextEmptyCell (board st) (Z.of_nat (row sel))
                                (Z.of_nat (col sel))
          | None => findFirstEmptyCell (board st)
          end in
        match next with
        | Some p => Some p
        | None => selectedCell st
        end
    end in
  mkState (solution st) (givenMask st) (board st) sel
          (undoStack st) (redoStack st) (mistakes st) (hintsLeft st).

(** What the player can do on the page. *)
Inductive Action : Type :=
| CellChange (row col : nat) (value : CellValue)
| Undo
| Redo
| Erase
| Hint
| NumberPad (digit : CellValue)
| SelectCell (pos : Position)
| KeyDown (key : Key).

Definition step (st : State) (a : Action) : State :=
  match a with
  | CellChange r c v => handleCellChange st r c v
  | Undo => handleUndo st
  | Redo => handleRedo st
  | Erase => handleErase st
  | Hint => handleHint st
  | NumberPad d => handleNumberPad st d
  | SelectCell pos =>
      mkState (solution st) (givenMask st) (board st) (Some pos)
              (undoStack st) (redoStack st) (mistakes st) (hintsLeft st)
  | KeyDown key => onKeyDown st key
  end.

Definition run (st : State) (actions : list Action) : State :=
  fold_left step actions st.

End Page.

(** ** The puzzle endpoint ([route.ts]) *)

Module Route.

Inductive Response : Type :=
| Ok (body : GeneratedPuzzle)
| BadRequest (error : string).

(** [['easy', 'medium', 'hard'].includes(p)] and the cast to
    [Difficulty]. *)
Definition asDifficulty (p : string) : option Difficulty :=
  if bool_decide (p = "easy"%string) then Some easy
  else if bool_decide (p = "medium"%string) then Some medium
  else if bool_decide (p = "hard"%string) then Some hard
  else None.

(** [query] is [searchParams.get('difficulty')]. *)
Definition GET (query : option string) (g : Rng) : option (Response * Rng) :=
  let difficultyParam := default "medium"%string query in
  match asDifficulty difficultyParam with
  | None =>
      Some (BadRequest "Invalid difficulty. Use easy, medium, or hard.", g)
  | Some difficulty =>
      match generatePuzzle difficulty g with
      | None => None
      | Some (gp, g') => Some (Ok gp, g')
      end
  end.

End Route.

(** The sanity-check puzzle of [solver.test.ts]. *)
Definition PUZZLE : Board :=
  [ [5; 3; 0; 0; 7; 0; 0; 0; 0];
    [6; 0; 0; 1; 9; 5; 0; 0; 0];
    [0; 9; 8; 0; 0; 0; 0; 6; 0];
    [8; 0; 0; 0; 6; 0; 0; 0; 3];
    [4; 0; 0; 8; 0; 3; 0; 0; 1];
    [7; 0; 0; 0; 2; 0; 0; 0; 6];
    [0; 6; 0; 0; 0; 0; 2; 8; 0];
    [0; 0; 0; 4; 1; 9; 0; 0; 5];
    [0; 0; 0; 0; 8; 0; 0; 7; 9] ].

(** * Specification vocabulary *)

(** A position of the 9x9 grid. *)
Definition inGrid (p : Position) : Prop :=
  (row p < GRID_SIZE)%nat /\ (col p < GRID_SIZE)%nat.

(** The structural contract of a board: 9 rows of 9 cells. *)
Definition Shape (b : Board) : Prop :=
  length b = GRID_SIZE /\ Forall (fun cells => length cells = GRID_SIZE) b.

Definition sameBlock (p q : Position) : Prop :=
  (row p / 3 = row q / 3 /\ col p / 3 = col q / 3)%nat.

(** [q] is another cell of the grid in the row, the column or the 3x3 block
    of [p]. *)
Definition peer (p q : Position) : Prop :=
  inGrid q /\ q <> p
  /\ (row q = row p \/ col q = col p \/ sameBlock p q).

Definition cellAt (b : Board) (p : Position) : option CellValue :=
  cell b (row p) (col p).

(** No two cells that share a row, a column or a block hold the same
    nonzero value. *)
Definition Valid (b : Board) : Prop :=
  forall p q v, inGrid p -> peer p q -> v <> 0 ->
    cellAt b p = Some v -> cellAt b q <> Some v.

(** No cell of the grid is empty. *)
Definition Full (b : Board) : Prop :=
  forall p, inGrid p -> exists v, cellAt b p = Some v /\ v <> 0.

(** A solved board: a 9x9 grid, full and valid. *)
Definition Solved (b : Board) : Prop := Shape b /\ Full b /\ Valid b.

(** [s] keeps every filled cell of [b]. *)
Definition Extends (b s : Board) : Prop :=
  forall p v, inGrid p -> cellAt b p = Some v -> v <> 0 -> cellAt s p = Some v.

(** [s] is a valid completion of [b]: a solved board that keeps the filled
    cells of [b] and holds a digit 1-9 in each cell that is empty in [b]. *)
Definition Completion (b s : Board) : Prop :=
  Solved s /\ Extends b s
  /\ forall p, inGrid p -> cellAt b p = Some 0 ->
       exists v, cellAt s p = Some v /\ 1 <= v <= 9.

(** The number of empty cells of the grid: the measure that bounds the
    recursion depth of the traversals. *)
Definition emptyCount (b : Board) : nat :=
  length (List.filter (fun p => cellIs b (row p) (col p) 0) allPositions).

(** The boards at which the traversal shared by [solveBacktrack] and
    [countBacktrack] reaches a full grid, in the order of the search, when
    nothing stops it early. *)
Fixpoint solutions (fuel : nat) (b : Board) : list Board :=
  match fuel with
  | O => []
  | S fuel' =>
      match findEmptyCell b with
      | None => [b]
      | Some p =>
          digits ≫= (fun v =>
            if isValidPlacement b (row p) (col p) v
            then solutions fuel' (setCell b (row p) (col p) v)
            else [])
      end
  end.

(** What the specification says of [solve] at a board [b]: it returns a
    solved completion of [b], or it returns [null] and [b] has no valid
    completion. *)
Definition solve_spec (b : Board) : Prop :=
  exists r, solve b = Some r
    /\ match r with
       | Some s => Completion b s /\ isBoardComplete s = true
       | None => forall s, ~ Completion b s
       end.

(** What the specification says of [countSolutions]: the result is the
    number of distinct valid completions of [b], capped at [limit]. *)
Definition countSolutions_spec (b : Board) (limit : Z) : Prop :=
  exists l : list Board,
    NoDup l /\ (forall s, s ∈ l <-> Completion b s)
    /\ countSolutions b limit = Some (Z.min (Z.of_nat (length l)) limit).

(** [b] is a 9x9 board obtained from [sol] by clearing cells. *)
Definition Carved (sol b : Board) : Prop :=
  Shape b
  /\ forall p, inGrid p -> cellAt b p = Some 0 \/ cellAt b p = cellAt sol p.

(** The structural contract for untyped input: the value decodes to 9
    sequences of 9 integers, each in [0,9]. *)
Definition cellDecodes (v : JSValue) (z : Z) : Prop :=
  exists q, v = JSNum (Finite q)
            /\ QArith_base.Qeq q (QArith_base.inject_Z z).

Definition rowDecodes (v : JSValue) (cells : list Z) : Prop :=
  exists vs, v = JSArray vs /\ Forall2 cellDecodes vs cells.

Definition boardDecodes (v : JSValue) (b : Board) : Prop :=
  exists vs, v = JSArray vs /\ Forall2 rowDecodes vs b.

Definition ShapeValid (v : JSValue) : Prop :=
  exists b, boardDecodes v b /\ Shape b
            /\ Forall (Forall (fun z => 0 <= z <= 9)) b.

(** What the search hands back when [l] lists the completions it can
    reach from [b]: the first of them, or failure with the grid as it
    was. *)
Definition firstOf (b : Board) (l : list Board) : bool * Board :=
  match l with
  | [] => (false, b)
  | s :: _ => (true, s)
  end.

(** [h'] has the objects of [h], with the same contents outside [ls]. *)
Definition Frame (ls : list nat) (h h' : list Heap.object) : Prop :=
  length h' = length h /\ forall l, l ∉ ls -> h' !! l = h !! l.

(** The run on the store [hres], started in [h] on the board reference
    [m] that owns the rows [ls], does what the run on grids [pres] does. *)
Definition refines (m : nat) (ls : list nat) (h : list Heap.object)
    (hres : option (bool * list Heap.object))
    (pres : option (bool * Board)) : Prop :=
  match pres with
  | None => hres = None
  | Some (ok, grid') =>
      exists h', hres = Some (ok, h')
                 /\ Heap.Rep h' m ls grid' /\ Frame ls h h'
  end.

(** What [isValidBoardShape] tests: 9 arrays of 9 numbers, none of which
    compares below 0 or above 9. *)
Definition Accepted (v : JSValue) : Prop :=
  exists rows, v = JSArray rows /\ length rows = GRID_SIZE
    /\ Forall (fun r =>
          exists cells, r = JSArray cells /\ length cells = GRID_SIZE
            /\ Forall (fun c =>
                  exists n, c = JSNum n
                            /\ numLt n 0 = false /\ numGt n 9 = false)
                  cells) rows.

(** Every number among the cells of [v] is a finite integer. *)
Definition IntegerCells (v : JSValue) : Prop :=
  forall rows cells n,
    v = JSArray rows -> JSArray cells ∈ rows -> JSNum n ∈ cells ->
    exists z, cellDecodes (JSNum n) z.

(** The number of grid positions that do not hold 0: the givens of a
    puzzle. *)
Definition givenCount (b : Board) : nat :=
  length (List.filter (fun p => negb (cellIs b (row p) (col p) 0))
                      allPositions).

(** The cell numbered [k] in row-major order. *)
Definition cellNumbered (k : nat) : Position :=
  mkPosition (k / 9) (k mod 9).

(** The loop variables of [findNextEmptyCell] at the cell numbered [k]. *)
Definition loopAt (k : nat) : Z * Z :=
  (Z.of_nat (k / 9), Z.of_nat (k mod 9)).


(** The character of the decimal digit [k]. *)
Definition digitChar (k : N) : ascii := ascii_of_N (48 + k).

(** ** Boards used in examples *)


(** A 9x9 grid of [NaN]. *)
Definition nanBoard : JSValue :=
  JSArray (replicate 9 (JSArray (replicate 9 (JSNum NaN)))).

(** A 9x9 grid of numbers in range whose first cell is 1.5. *)
Definition fractionBoard : JSValue :=
  JSArray
    (JSArray (JSNum (Finite (QArith_base.Qmake 3 2))
              :: replicate 8 (JSNum (Finite (QArith_base.inject_Z 0))))
     :: replicate 8
          (JSArray (replicate 9 (JSNum (Finite (QArith_base.inject_Z 0)))))).

(** A board with two 7s in row 0. *)
Definition twoSevens : Board :=
  [7; 0; 0; 0; 7; 0; 0; 0; 0] :: replicate 8 (replicate 9 0).

(** A full 9x9 board that breaks every rule. *)
Definition allFives : Board := replicate 9 (replicate 9 5).

(** A solved grid (the solution of [PUZZLE]). *)
Definition solvedGrid : Board :=
  [ [5; 3; 4; 6; 7; 8; 9; 1; 2];
    [6; 7; 2; 1; 9; 5; 3; 4; 8];
    [1; 9; 8; 3; 4; 2; 5; 6; 7];
    [8; 5; 9; 7; 6; 1; 4; 2; 3];
    [4; 2; 6; 8; 5; 3; 7; 9; 1];
    [7; 1; 3; 9; 2; 4; 8; 5; 6];
    [9; 6; 1; 5; 3; 7; 2; 8; 4];
    [2; 8; 7; 4; 1; 9; 6; 3; 5];
    [3; 4; 5; 2; 8; 6; 1; 7; 9] ].

(** A store with the sanity-check puzzle at reference 9, whose rows are the
    arrays at references 0 to 8. *)
Definition puzzleStore : list Heap.object :=
  map Heap.Cells PUZZLE ++ [Heap.Rows (seq 0 9)].

(** A board whose first empty cell, the last of row 0, admits no digit. *)
Definition stuckBoard : Board :=
  [ [1; 2; 3; 4; 5; 6; 7; 8; 0];
    [0; 0; 0; 0; 0; 0; 0; 0; 9] ] ++ replicate 7 (replicate 9 0).

(** The all-zero grid as an untyped value. *)
Definition zeroBoardValue : JSValue :=
  JSArray (replicate 9 (JSArray
    (replicate 9 (JSNum (Finite (QArith_base.inject_Z 0)))))).

(** * Properties *)

(** The reference case of the sanity check. *)
Example solve_PUZZLE :
  solve PUZZLE = Some (Some solvedGrid)
  /\ isBoardComplete solvedGrid = true
  /\ hasUniqueSolution PUZZLE = Some true.
Proof. vm_compute. auto. Qed.

(** ** Grid positions and cells *)

Ltac div3 x :=
  let q := fresh "q" in
  let m := fresh "m" in
  pose proof (Nat.div_mod_eq x 3);
  pose proof (Nat.mod_upper_bound x 3 ltac:(lia));
  generalize dependent (x `div` 3)%nat;
  generalize dependent (x `mod` 3)%nat; intros m q; intros.

Lemma elem_allPositions (p : Position) : In p allPositions <-> inGrid p.
Proof.
  unfold allPositions, inGrid. rewrite in_flat_map. split.
  - intros (r & Hr & Hp). apply in_map_iff in Hp as (c & <- & Hc).
    apply in_seq in Hr, Hc. simpl. lia.
  - intros [Hr Hc]. exists (row p). split; [apply in_seq; lia|].
    apply in_map_iff. exists (col p). destruct p; cbn [row col] in *.
    split; [done|apply in_seq; lia].
Qed.

Lemma NoDup_allPositions : List.NoDup allPositions.
Proof.
  apply NoDup_ListNoDup.
  apply (bool_decide_unpack (NoDup allPositions)). vm_compute. exact I.
Qed.

Lemma inGrid_mk (r c : nat) :
  inGrid (mkPosition r c) <-> (r < 9 /\ c < 9)%nat.
Proof. reflexivity. Qed.

Lemma cellIs_true (b : Board) (r c : nat) (v : CellValue) :
  cellIs b r c v = true <-> cell b r c = Some v.
Proof. unfold cellIs. by rewrite bool_decide_eq_true. Qed.

Lemma block_range (r r' : nat) :
  (r / 3 * 3 <= r' < r / 3 * 3 + 3 <-> r' / 3 = r / 3)%nat.
Proof. div3 r. div3 r'. lia. Qed.

Section Scans.
Variables (b : Board) (r c : nat) (v : CellValue).

Let rowScan : bool :=
  existsb (fun c' => bool_decide (c' <> c) && cellIs b r c' v)
          (seq 0 GRID_SIZE).
Let colScan : bool :=
  existsb (fun r' => bool_decide (r' <> r) && cellIs b r' c v)
          (seq 0 GRID_SIZE).
Let blockScan : bool :=
  existsb (fun r' =>
    existsb (fun c' =>
      (bool_decide (r' <> r) || bool_decide (c' <> c)) && cellIs b r' c' v)
      (seq (c / BLOCK_SIZE * BLOCK_SIZE) BLOCK_SIZE))
    (seq (r / BLOCK_SIZE * BLOCK_SIZE) BLOCK_SIZE).

Lemma isValidPlacement_scans :
  v <> 0 -> isValidPlacement b r c v = negb (rowScan || colScan || blockScan).
Proof.
  intros Hv. unfold isValidPlacement.
  rewrite bool_decide_eq_false_2 by done.
  fold rowScan colScan. cbv zeta. fold blockScan.
  by destruct rowScan, colScan, blockScan.
Qed.

Lemma rowScan_true :
  rowScan = true
  <-> exists c', (c' < 9)%nat /\ c' <> c /\ cell b r c' = Some v.
Proof.
  unfold rowScan. rewrite existsb_exists. split.
  - intros (c' & Hin%in_seq & [Hne Hcell]%andb_true_iff).
    apply bool_decide_eq_true in Hne. apply cellIs_true in Hcell.
    exists c'. unfold GRID_SIZE in *. repeat split; [lia|done..].
  - intros (c' & Hlt & Hne & Hcell). exists c'.
    split; [apply in_seq; unfold GRID_SIZE; lia|].
    apply andb_true_iff. split; [by apply bool_decide_eq_true|].
    by apply cellIs_true.
Qed.

Lemma colScan_true :
  colScan = true
  <-> exists r', (r' < 9)%nat /\ r' <> r /\ cell b r' c = Some v.
Proof.
  unfold colScan. rewrite existsb_exists. split.
  - intros (r' & Hin%in_seq & [Hne Hcell]%andb_true_iff).
    apply bool_decide_eq_true in Hne. apply cellIs_true in Hcell.
    exists r'. unfold GRID_SIZE in *. repeat split; [lia|done..].
  - intros (r' & Hlt & Hne & Hcell). exists r'.
    split; [apply in_seq; unfold GRID_SIZE; lia|].
    apply andb_true_iff. split; [by apply bool_decide_eq_true|].
    by apply cellIs_true.
Qed.

Lemma blockScan_true :
  blockScan = true
  <-> exists r' c', (r' / 3 = r / 3)%nat /\ (c' / 3 = c / 3)%nat
                    /\ (r' <> r \/ c' <> c) /\ cell b r' c' = Some v.
Proof.
  unfold blockScan, BLOCK_SIZE. rewrite existsb_exists. split.
  - intros (r' & Hin%in_seq & (c' & Hin'%in_seq & E)%existsb_exists).
    apply andb_true_iff in E as [Hne%orb_true_iff Hcell%cellIs_true].
    exists r', c'. split; [apply block_range; lia|].
    split; [apply block_range; lia|]. split; [|done].
    destruct Hne as [H|H]; apply bool_decide_eq_true in H; auto.
  - intros (r' & c' & Hr%block_range & Hc%block_range & Hne & Hcell).
    exists r'. split; [apply in_seq; lia|]. apply existsb_exists.
    exists c'. split; [apply in_seq; lia|].
    apply andb_true_iff. split; [|by apply cellIs_true].
    apply orb_true_iff.
    destruct Hne; [left|right]; by apply bool_decide_eq_true.
Qed.
End Scans.

(** The three scans of [isValidPlacement] find a duplicate exactly when a
    peer of the cell holds the value. *)
Lemma isValidPlacement_false_iff (b : Board) (r c : nat) (v : CellValue) :
  (r < GRID_SIZE)%nat -> (c < GRID_SIZE)%nat -> v <> 0 ->
  isValidPlacement b r c v = false
  <-> exists q, peer (mkPosition r c) q /\ cellAt b q = Some v.
Proof.
  intros Hr Hc Hv. unfold GRID_SIZE in *.
  rewrite isValidPlacement_scans, negb_false_iff by done.
  rewrite !orb_true_iff, rowScan_true, colScan_true, blockScan_true.
  split.
  - intros [[(c' & ? & ? & ?)|(r' & ? & ? & ?)]|(r' & c' & ? & ? & ? & ?)].
    + exists (mkPosition r c'). split; [|done].
      split; [apply inGrid_mk; lia|]. split; [intros [= ?]; done|by left].
    + exists (mkPosition r' c). split; [|done].
      split; [apply inGrid_mk; lia|].
      split; [intros [= ?]; done|right; by left].
    + exists (mkPosition r' c'). split; [|done].
      split; [apply inGrid_mk; div3 r; div3 r'; div3 c; div3 c'; lia|].
      split; [intros [= -> ->]; tauto|].
      right; right. split; cbn [row col]; congruence.
  - intros ([r' c'] & (Hin & Hne & Hrel) & Hcell).
    apply inGrid_mk in Hin as [Hr' Hc']. unfold cellAt in Hcell.
    cbn [row col] in *.
    assert (r' <> r \/ c' <> c) as Hne'.
    { destruct (decide (r' = r)) as [->|]; [right|by left]. congruence. }
    destruct Hrel as [->|[->|[Hbr Hbc]]].
    + left; left. exists c'. split; [done|]. split; [|done]. tauto.
    + left; right. exists r'. split; [done|]. split; [|done]. tauto.
    + right. exists r', c'. cbn [row col] in *. done.
Qed.

Lemma isValidPlacement_true_iff (b : Board) (r c : nat) (v : CellValue) :
  (r < GRID_SIZE)%nat -> (c < GRID_SIZE)%nat -> v <> 0 ->
  isValidPlacement b r c v = true
  <-> forall q, peer (mkPosition r c) q -> cellAt b q <> Some v.
Proof.
  intros Hr Hc Hv. rewrite <- not_false_iff_true.
  rewrite isValidPlacement_false_iff by done. split.
  - intros Hn q Hq Hcell. apply Hn. by exists q.
  - intros Hall (q & Hq & Hcell). by apply (Hall q).
Qed.

Lemma peer_sym (p q : Position) : inGrid p -> peer p q -> peer q p.
Proof.
  intros Hp (Hq & Hne & Hrel). split; [done|]. split; [congruence|].
  unfold sameBlock in *. destruct Hrel as [?|[?|[? ?]]]; auto.
Qed.

(** C6: for an in-range position, [isValidPlacement] answers [true] for the
    value 0 whatever the board holds, and for any other value it answers
    [false] exactly when another cell of the same row, column or 3x3 block
    (the cell itself excluded) already holds that value. *)
Theorem isValidPlacement_spec (b : Board) (r c : nat) (v : CellValue) :
  (r < GRID_SIZE)%nat -> (c < GRID_SIZE)%nat ->
  (v = 0 -> isValidPlacement b r c v = true)
  /\ (v <> 0 ->
      (isValidPlacement b r c v = false
       <-> exists q, peer (mkPosition r c) q /\ cellAt b q = Some v)).
Proof.
  intros Hr Hc. split.
  - intros ->. reflexivity.
  - intros Hv. by apply isValidPlacement_false_iff.
Qed.

Lemma isValidPlacement_spec_witness :
  isValidPlacement PUZZLE 0 2 0 = true
  /\ (isValidPlacement PUZZLE 0 2 5 = false
      <-> exists q, peer (mkPosition 0 2) q /\ cellAt PUZZLE q = Some 5).
Proof.
  split.
  - apply (isValidPlacement_spec PUZZLE 0 2 0); [vm_compute; lia..|reflexivity].
  - apply (isValidPlacement_spec PUZZLE 0 2 5); [vm_compute; lia..|lia].
Defined.

(** ** The conflict detector *)

Lemma inConflict_true (b : Board) (p : Position) :
  inConflict b p = true
  <-> exists v, cellAt b p = Some v /\ v <> 0
                /\ isValidPlacement b (row p) (col p) v = false.
Proof.
  unfold inConflict, cellAt. destruct (cell b (row p) (col p)) as [v|].
  - rewrite andb_true_iff, !negb_true_iff, bool_decide_eq_false. split.
    + intros [? ?]. by exists v.
    + intros (v' & [= <-] & ? & ?). done.
  - split; [done|]. by intros (v & ? & _).
Qed.

Lemma elem_getConflicts (b : Board) (p : Position) :
  In p (getConflicts b)
  <-> inGrid p
      /\ exists v, cellAt b p = Some v /\ v <> 0
                   /\ isValidPlacement b (row p) (col p) v = false.
Proof.
  unfold getConflicts.
  by rewrite filter_In, elem_allPositions, inConflict_true.
Qed.

(** A cell that duplicates the value of a peer is reported. *)
Lemma duplicate_in_getConflicts (b : Board) (p q : Position) (v : CellValue) :
  inGrid p -> peer p q -> v <> 0 ->
  cellAt b p = Some v -> cellAt b q = Some v ->
  In p (getConflicts b).
Proof.
  intros Hp Hpq Hv Hcp Hcq. apply elem_getConflicts. split; [done|].
  exists v. split; [done|]. split; [done|]. destruct Hp as [Hr Hc].
  apply isValidPlacement_false_iff; [done..|].
  exists q. by destruct p.
Qed.

(** C9: [getConflicts] lists, without repetition, exactly the grid
    positions whose cell is nonzero and fails [isValidPlacement] on the
    board as it stands; two equal nonzero values in one row (two 7s in
    particular) are both reported, and the all-zero board has no
    conflict. *)
Theorem getConflicts_spec (b : Board) :
  (forall p, In p (getConflicts b)
     <-> inGrid p
         /\ exists v, cellAt b p = Some v /\ v <> 0
                      /\ isValidPlacement b (row p) (col p) v = false)
  /\ List.NoDup (getConflicts b)
  /\ (forall r c1 c2,
        (r < GRID_SIZE)%nat -> (c1 < GRID_SIZE)%nat -> (c2 < GRID_SIZE)%nat ->
        c1 <> c2 -> cell b r c1 = Some 7 -> cell b r c2 = Some 7 ->
        In (mkPosition r c1) (getConflicts b)
        /\ In (mkPosition r c2) (getConflicts b))
  /\ getConflicts createEmptyBoard = [].
Proof.
  split; [apply elem_getConflicts|].
  split; [apply List.NoDup_filter, NoDup_allPositions|].
  split; [|reflexivity].
  intros r c1 c2 Hr Hc1 Hc2 Hne H1 H2.
  assert (forall c c', (c < GRID_SIZE)%nat -> (c' < GRID_SIZE)%nat -> c <> c' ->
            peer (mkPosition r c) (mkPosition r c')) as Hpeer.
  { intros c c' ? ? ?. split; [by apply inGrid_mk|].
    split; [intros [= ?]; done|by left]. }
  split.
  - apply (duplicate_in_getConflicts b _ (mkPosition r c2) 7); auto.
    by apply inGrid_mk.
  - apply (duplicate_in_getConflicts b _ (mkPosition r c1) 7); auto.
    by apply inGrid_mk.
Qed.

Lemma getConflicts_spec_witness :
  In (mkPosition 0 0) (getConflicts twoSevens)
  /\ In (mkPosition 0 4) (getConflicts twoSevens).
Proof.
  apply (getConflicts_spec twoSevens); [vm_compute; lia..|lia| |];
    reflexivity.
Defined.

(** C10: conflicts never come alone.  Every reported position has a
    different reported position in its row, column or 3x3 block that holds
    the same nonzero value; so the list never has exactly one element. *)
Theorem getConflicts_grouped (b : Board) :
  length (getConflicts b) <> 1%nat
  /\ forall p, In p (getConflicts b) ->
       exists q, In q (getConflicts b) /\ q <> p
                 /\ (row q = row p \/ col q = col p \/ sameBlock p q)
                 /\ exists v, v <> 0 /\ cellAt b p = Some v
                              /\ cellAt b q = Some v.
Proof.
  assert (forall p, In p (getConflicts b) ->
       exists q, In q (getConflicts b) /\ q <> p
                 /\ (row q = row p \/ col q = col p \/ sameBlock p q)
                 /\ exists v, v <> 0 /\ cellAt b p = Some v
                              /\ cellAt b q = Some v) as Hgroup.
  { intros p Hp. apply elem_getConflicts in Hp as (Hin & v & Hcp & Hv & Hbad).
    destruct Hin as [Hr Hc].
    apply isValidPlacement_false_iff in Hbad as (q & Hpq & Hcq); [|done..].
    assert (mkPosition (row p) (col p) = p) as Hp by by destruct p.
    rewrite Hp in Hpq. exists q.
    split.
    { apply (duplicate_in_getConflicts b q p v); try done.
      - apply Hpq.
      - by apply peer_sym. }
    destruct Hpq as (Hq & Hne & Hrel).
    split; [done|]. split; [done|]. by exists v. }
  split; [|done].
  destruct (getConflicts b) as [|p [|p' l]] eqn:E; [done| |done].
  intros _. destruct (Hgroup p) as (q & Hq & Hne & _); [by left|].
  destruct Hq as [->|[]]. done.
Qed.

Lemma getConflicts_grouped_witness :
  exists q, In q (getConflicts twoSevens) /\ q <> mkPosition 0 0
            /\ (row q = 0 \/ col q = 0 \/ sameBlock (mkPosition 0 0) q)%nat
            /\ exists v, v <> 0 /\ cellAt twoSevens (mkPosition 0 0) = Some v
                         /\ cellAt twoSevens q = Some v.
Proof.
  apply (proj2 (getConflicts_grouped twoSevens) (mkPosition 0 0)).
  vm_compute. by left.
Defined.

(** ** Reading and writing cells *)

Lemma cell_setCell (b : Board) (r c r' c' : nat) (v : CellValue) :
  is_Some (cell b r c) ->
  cell (setCell b r c v) r' c'
  = if decide (r' = r /\ c' = c) then Some v else cell b r' c'.
Proof.
  unfold cell, setCell. intros [w Hw].
  destruct (b !! r) as [cells|] eqn:Hrow; [|done]. cbv beta iota.
  destruct (decide (r' = r)) as [->|Hr].
  - rewrite list_lookup_insert_eq by by eapply lookup_lt_Some.
    rewrite Hrow. destruct (decide (c' = c)) as [->|Hc].
    + rewrite list_lookup_insert_eq by by eapply lookup_lt_Some.
      by rewrite decide_True.
    + rewrite list_lookup_insert_ne by done. rewrite decide_False; tauto.
  - rewrite list_lookup_insert_ne by done. rewrite decide_False; tauto.
Qed.

Lemma cellAt_setCell (b : Board) (p q : Position) (v : CellValue) :
  is_Some (cellAt b p) ->
  cellAt (setCell b (row p) (col p) v) q
  = if decide (q = p) then Some v else cellAt b q.
Proof.
  intros Hp. unfold cellAt. rewrite cell_setCell by done.
  destruct p as [r c], q as [r' c']. cbn [row col].
  destruct (decide (r' = r /\ c' = c)) as [[-> ->]|Hne].
  - by rewrite decide_True.
  - rewrite decide_False; [done|]. intros [= -> ->]. tauto.
Qed.

Lemma setCell_restore (b : Board) (r c : nat) (v w : CellValue) :
  cell b r c = Some w -> setCell (setCell b r c v) r c w = b.
Proof.
  unfold cell, setCell. destruct (b !! r) as [cells|] eqn:Hrow; [|done].
  cbv beta iota.
  intros Hc. rewrite list_lookup_insert_eq by by eapply lookup_lt_Some.
  rewrite list_insert_insert_eq, list_insert_insert_eq.
  rewrite (list_insert_id cells) by done. by apply list_insert_id.
Qed.

Lemma Shape_setCell (b : Board) (r c : nat) (v : CellValue) :
  Shape b -> Shape (setCell b r c v).
Proof.
  intros [Hlen Hrows]. unfold setCell.
  destruct (b !! r) as [cells|] eqn:Hrow; [|done]. split.
  - by rewrite length_insert.
  - apply Forall_insert; [done|]. rewrite length_insert.
    eapply Forall_lookup_1 in Hrows; eauto.
Qed.

Lemma Shape_cellAt (b : Board) (p : Position) :
  Shape b -> inGrid p -> is_Some (cellAt b p).
Proof.
  intros [Hlen Hrows] [Hr Hc]. unfold cellAt, cell.
  destruct (lookup_lt_is_Some_2 b (row p)) as [cells Hcells]; [lia|].
  rewrite Hcells. apply lookup_lt_is_Some_2.
  eapply Forall_lookup_1 in Hrows; eauto. simpl in Hrows. lia.
Qed.

(** A 9x9 board is determined by its 81 cells. *)
Lemma Shape_ext (a b : Board) :
  Shape a -> Shape b ->
  (forall p, inGrid p -> cellAt a p = cellAt b p) -> a = b.
Proof.
  intros [Hla Hra] [Hlb Hrb] Hcells. apply list_eq. intros r.
  destruct (decide (r < GRID_SIZE)%nat) as [Hr|Hr].
  - destruct (lookup_lt_is_Some_2 a r) as [ra Ha]; [lia|].
    destruct (lookup_lt_is_Some_2 b r) as [rb Hb]; [lia|].
    rewrite Ha, Hb. f_equal. apply list_eq. intros c.
    eapply Forall_lookup_1 in Hra; eauto.
    eapply Forall_lookup_1 in Hrb; eauto. simpl in *.
    destruct (decide (c < GRID_SIZE)%nat) as [Hc|Hc].
    + specialize (Hcells (mkPosition r c) (conj Hr Hc)).
      unfold cellAt, cell in Hcells. cbn [row col] in Hcells.
      by rewrite Ha, Hb in Hcells.
    + rewrite !lookup_ge_None_2 by lia. done.
  - rewrite !lookup_ge_None_2 by lia. done.
Qed.

(** ** The empty cell found by the scan, and the measure *)

Lemma findEmptyCell_Some (b : Board) (p : Position) :
  findEmptyCell b = Some p -> inGrid p /\ cellAt b p = Some 0.
Proof.
  intros [Hin Hp]%find_some. split; [by apply elem_allPositions|].
  by apply cellIs_true.
Qed.

Lemma findEmptyCell_None (b : Board) (p : Position) :
  findEmptyCell b = None -> inGrid p -> cellAt b p <> Some 0.
Proof.
  intros Hnone Hp Hcell. apply elem_allPositions in Hp.
  apply (find_none _ _ Hnone) in Hp. apply cellIs_true in Hcell.
  unfold cellAt in Hcell. congruence.
Qed.

Lemma filter_length_le {A : Type} (f g : A -> bool) (l : list A) :
  (forall y, f y = true -> g y = true) ->
  (length (List.filter f l) <= length (List.filter g l))%nat.
Proof.
  intros Hfg. induction l as [|a l IH]; simpl; [lia|].
  destruct (f a) eqn:Hf.
  - rewrite (Hfg _ Hf). simpl. lia.
  - destruct (g a); simpl; lia.
Qed.

Lemma filter_length_lt {A : Type} (f g : A -> bool) (l : list A) (x : A) :
  In x l -> g x = true -> f x = false ->
  (forall y, f y = true -> g y = true) ->
  (length (List.filter f l) < length (List.filter g l))%nat.
Proof.
  intros Hin Hg Hf Hfg. induction l as [|a l IH]; [done|].
  pose proof (filter_length_le f g l Hfg). simpl.
  destruct Hin as [->|Hin].
  - rewrite Hf, Hg. simpl. lia.
  - specialize (IH Hin). destruct (f a) eqn:Hfa.
    + rewrite (Hfg _ Hfa). simpl. lia.
    + destruct (g a); simpl; lia.
Qed.

Lemma emptyCount_bound (b : Board) : (emptyCount b < maxDepth)%nat.
Proof.
  unfold emptyCount, maxDepth.
  pose proof (List.filter_length_le
                (fun p => cellIs b (row p) (col p) 0) allPositions) as H.
  change (length allPositions) with (GRID_SIZE * GRID_SIZE)%nat in H. lia.
Qed.

Lemma emptyCount_setCell (b : Board) (p : Position) (v : CellValue) :
  inGrid p -> cellAt b p = Some 0 -> v <> 0 ->
  (emptyCount (setCell b (row p) (col p) v) < emptyCount b)%nat.
Proof.
  intros Hp Hcell Hv. unfold emptyCount.
  apply (filter_length_lt _ _ _ p).
  - by apply elem_allPositions.
  - by apply cellIs_true.
  - apply not_true_iff_false. rewrite cellIs_true.
    fold (cellAt (setCell b (row p) (col p) v) p).
    rewrite cellAt_setCell, decide_True by (done || by rewrite Hcell).
    congruence.
  - intros q. rewrite !cellIs_true.
    fold (cellAt (setCell b (row p) (col p) v) q). fold (cellAt b q).
    rewrite cellAt_setCell by by rewrite Hcell.
    destruct (decide (q = p)); [congruence|done].
Qed.

(** ** Valid boards and their completions *)

Lemma elem_digits (v : CellValue) : v ∈ digits <-> 1 <= v <= 9.
Proof. unfold digits. rewrite !elem_of_cons, elem_of_nil. lia. Qed.

Lemma mkPosition_eta (p : Position) : mkPosition (row p) (col p) = p.
Proof. by destruct p. Qed.

Lemma isValidPlacement_at_true (b : Board) (p : Position) (v : CellValue) :
  inGrid p -> v <> 0 ->
  isValidPlacement b (row p) (col p) v = true
  <-> forall q, peer p q -> cellAt b q <> Some v.
Proof.
  intros [Hr Hc] Hv. rewrite isValidPlacement_true_iff by done.
  by rewrite mkPosition_eta.
Qed.

(** Writing a digit that passes [isValidPlacement] into an empty cell keeps
    the board valid. *)
Lemma Valid_setCell (b : Board) (p : Position) (v : CellValue) :
  inGrid p -> cellAt b p = Some 0 -> Valid b -> v <> 0 ->
  isValidPlacement b (row p) (col p) v = true ->
  Valid (setCell b (row p) (col p) v).
Proof.
  intros Hp Hcell Hvalid Hv Hok p1 q1 w Hp1 Hpeer Hw.
  rewrite (isValidPlacement_at_true b p v) in Hok by done.
  rewrite !cellAt_setCell by by rewrite Hcell.
  destruct (decide (p1 = p)) as [->|Hne1];
    destruct (decide (q1 = p)) as [->|Hne2].
  - destruct Hpeer as (_ & Hne & _). done.
  - intros [= <-]. by apply Hok.
  - intros Hc1 [= <-]. apply (Hok p1); [|done]. by apply peer_sym.
  - by apply Hvalid.
Qed.

(** Clearing cells of a valid board keeps it valid. *)
Lemma Valid_below (b s : Board) :
  (forall p v, inGrid p -> cellAt b p = Some v -> v <> 0 -> cellAt s p = Some v) ->
  Valid s -> Valid b.
Proof.
  intros Hsub Hvalid p q v Hp Hpeer Hv Hcp Hcq.
  apply (Hvalid p q v Hp Hpeer Hv); [by apply Hsub|].
  apply Hsub; [apply Hpeer|done..].
Qed.

Lemma Completion_full (b s : Board) :
  Shape b -> Valid b -> findEmptyCell b = None ->
  Completion b s <-> s = b.
Proof.
  intros Hshape Hvalid Hnone.
  assert (Full b) as Hfull.
  { intros p Hp. destruct (Shape_cellAt b p Hshape Hp) as [v Hv].
    exists v. split; [done|]. intros ->.
    by apply (findEmptyCell_None b p). }
  split.
  - intros ((Hs & _ & _) & Hext & _). apply Shape_ext; [done..|].
    intros p Hp. destruct (Hfull p Hp) as (v & Hv & Hne).
    rewrite Hv. by apply Hext.
  - intros ->. split; [done|]. split; [by intros p v _ ? _|].
    intros p Hp Hz. by apply findEmptyCell_None in Hz.
Qed.

(** The completions of a board with an empty cell [p] are the completions
    of the boards obtained by writing an admissible digit at [p]. *)
Lemma Completion_step (b s : Board) (p : Position) :
  inGrid p -> cellAt b p = Some 0 ->
  Completion b s
  <-> exists v, v ∈ digits
        /\ isValidPlacement b (row p) (col p) v = true
        /\ Completion (setCell b (row p) (col p) v) s.
Proof.
  intros Hp Hcell.
  assert (is_Some (cellAt b p)) as Hsome by by rewrite Hcell.
  split.
  - intros (Hsolved & Hext & Hdig).
    destruct (Hdig p Hp Hcell) as (v & Hv & Hrange).
    exists v. split; [by apply elem_digits|].
    destruct Hsolved as (Hshape & Hfull & Hvalid).
    split.
    + apply isValidPlacement_at_true; [done|lia|].
      intros q Hq Hcq.
      apply (Hvalid p q v); [done|done|lia|done|].
      apply Hext; [apply Hq|done|lia].
    + split; [done|]. split.
      * intros q w Hq. rewrite cellAt_setCell by done.
        destruct (decide (q = p)) as [->|Hne].
        -- by intros [= <-] _.
        -- by apply Hext.
      * intros q Hq. rewrite cellAt_setCell by done.
        destruct (decide (q = p)) as [->|Hne].
        -- intros [= ->]. lia.
        -- by apply Hdig.
  - intros (v & Hv%elem_digits & Hok & Hsolved & Hext & Hdig).
    split; [done|]. split.
    + intros q w Hq Hcq Hw. apply Hext; [done| |done].
      rewrite cellAt_setCell by done.
      rewrite decide_False; [done|]. intros ->. congruence.
    + intros q Hq Hcq. destruct (decide (q = p)) as [->|Hne].
      * exists v. split; [|done]. apply Hext; [done| |lia].
        by rewrite cellAt_setCell, decide_True.
      * apply Hdig; [done|]. by rewrite cellAt_setCell, decide_False.
Qed.

Lemma Completion_setCell_value (b s : Board) (p : Position) (v : CellValue) :
  inGrid p -> is_Some (cellAt b p) -> v <> 0 ->
  Completion (setCell b (row p) (col p) v) s -> cellAt s p = Some v.
Proof.
  intros Hp Hsome Hv (_ & Hext & _). apply Hext; [done| |done].
  by rewrite cellAt_setCell, decide_True.
Qed.

(** [solutions] lists the completions of a valid board, each once. *)
Lemma solutions_spec (fuel : nat) (b : Board) :
  (emptyCount b < fuel)%nat -> Shape b -> Valid b ->
  NoDup (solutions fuel b)
  /\ forall s, s ∈ solutions fuel b <-> Completion b s.
Proof.
  revert b. induction fuel as [|fuel IH]; intros b Hfuel Hshape Hvalid;
    [lia|].
  cbn [solutions]. destruct (findEmptyCell b) as [p|] eqn:Hfind.
  - apply findEmptyCell_Some in Hfind as [Hp Hcell].
    assert (is_Some (cellAt b p)) as Hsome by by rewrite Hcell.
    assert (forall v, v ∈ digits ->
              isValidPlacement b (row p) (col p) v = true ->
              NoDup (solutions fuel (setCell b (row p) (col p) v))
              /\ forall s, s ∈ solutions fuel (setCell b (row p) (col p) v)
                           <-> Completion (setCell b (row p) (col p) v) s)
      as Hsub.
    { intros v Hv%elem_digits Hok. apply IH.
      - pose proof (emptyCount_setCell b p v Hp Hcell). lia.
      - by apply Shape_setCell.
      - apply Valid_setCell; [done..|lia|done]. }
    split.
    + apply NoDup_bind.
      * intros v1 v2 s Hv1 Hv2 Hs1 Hs2.
        destruct (isValidPlacement b (row p) (col p) v1) eqn:Hok1;
          [|by apply elem_of_nil in Hs1].
        destruct (isValidPlacement b (row p) (col p) v2) eqn:Hok2;
          [|by apply elem_of_nil in Hs2].
        apply (Hsub v1 Hv1 Hok1) in Hs1. apply (Hsub v2 Hv2 Hok2) in Hs2.
        apply elem_digits in Hv1, Hv2.
        apply Completion_setCell_value in Hs1; [|done|done|lia].
        apply Completion_setCell_value in Hs2; [|done|done|lia].
        congruence.
      * intros v Hv.
        destruct (isValidPlacement b (row p) (col p) v) eqn:Hok;
          [by apply Hsub|constructor].
      * unfold digits. apply (bool_decide_unpack (NoDup _)). vm_compute.
        exact I.
    + intros s. rewrite (Completion_step b s p Hp Hcell), list_elem_of_bind.
      split.
      * intros (v & Hs & Hv). exists v. split; [done|].
        destruct (isValidPlacement b (row p) (col p) v) eqn:Hok;
          [|by apply elem_of_nil in Hs].
        split; [done|]. by apply Hsub.
      * intros (v & Hv & Hok & Hs). exists v. split; [|done].
        rewrite Hok. by apply Hsub.
  - split; [apply NoDup_singleton|]. intros s.
    rewrite Completion_full by done. apply list_elem_of_singleton.
Qed.

Lemma isBoardComplete_true (b : Board) :
  isBoardComplete b = true <-> Full b /\ Valid b.
Proof.
  unfold isBoardComplete. split.
  - destruct (findEmptyCell b) eqn:Hfind; [done|].
    rewrite forallb_forall. intros Hall.
    assert (forall p, inGrid p ->
              exists v, cellAt b p = Some v /\ v <> 0
                /\ isValidPlacement b (row p) (col p) v = true) as Hcells.
    { intros p Hp%elem_allPositions. specialize (Hall p Hp).
      unfold cellSettled in Hall. fold (cellAt b p) in Hall.
      destruct (cellAt b p) as [v|]; [|done].
      apply andb_true_iff in Hall as [Hv%negb_true_iff Hok].
      apply bool_decide_eq_false in Hv. by exists v. }
    split.
    + intros p Hp. destruct (Hcells p Hp) as (v & ? & ? & _). by exists v.
    + intros p q v Hp Hpeer Hv Hcp.
      destruct (Hcells p Hp) as (v' & Hcp' & _ & Hok).
      assert (v' = v) as -> by congruence.
      rewrite isValidPlacement_at_true in Hok by done. by apply Hok.
  - intros [Hfull Hvalid].
    destruct (findEmptyCell b) as [p|] eqn:Hfind.
    { apply findEmptyCell_Some in Hfind as [Hp Hcell].
      destruct (Hfull p Hp) as (v & ? & ?). congruence. }
    apply forallb_forall. intros p Hp%elem_allPositions.
    unfold cellSettled. fold (cellAt b p).
    destruct (Hfull p Hp) as (v & Hcp & Hv). rewrite Hcp.
    apply andb_true_iff. split.
    + apply negb_true_iff. by apply bool_decide_eq_false.
    + apply isValidPlacement_at_true; [done..|].
      intros q Hq. by apply (Hvalid p q v).
Qed.

Lemma getConflicts_nil (b : Board) : getConflicts b = [] <-> Valid b.
Proof.
  split.
  - intros Hnil p q v Hp Hpeer Hv Hcp Hcq.
    assert (In p (getConflicts b)) as Hin
      by by apply (duplicate_in_getConflicts b p q v).
    by rewrite Hnil in Hin.
  - intros Hvalid. destruct (getConflicts b) as [|p l] eqn:E; [done|].
    assert (In p (getConflicts b)) as Hin by (rewrite E; by left).
    apply elem_getConflicts in Hin as (Hp & v & Hcp & Hv & Hbad).
    destruct Hp as [Hr Hc].
    apply isValidPlacement_false_iff in Hbad as (q & Hpeer & Hcq);
      [|done..].
    rewrite mkPosition_eta in Hpeer.
    by destruct (Hvalid p q v).
Qed.

(** ** The solver returns the first completion of the search order *)

Section Loops.
Variables (b : Board) (p : Position).
Hypothesis Hcell : cellAt b p = Some 0.
Variable sols : Board -> list Board.

Let next (v : CellValue) : Board := setCell b (row p) (col p) v.
Let branch (v : CellValue) : list Board :=
  if isValidPlacement b (row p) (col p) v then sols (next v) else [].

Lemma next_restore (v : CellValue) : setCell (next v) (row p) (col p) 0 = b.
Proof. by apply setCell_restore. Qed.

Lemma solveDigits_first recur (ds : list CellValue) :
  (forall v, v ∈ ds -> isValidPlacement b (row p) (col p) v = true ->
     recur (next v) = Some (firstOf (next v) (sols (next v)))) ->
  solveDigits recur (row p) (col p) ds b
  = Some (firstOf b (ds ≫= branch)).
Proof.
  induction ds as [|v ds IH]; intros Hrec; [done|].
  assert (solveDigits recur (row p) (col p) ds b
          = Some (firstOf b (ds ≫= branch))) as IH'.
  { apply IH. intros w Hw. apply Hrec. by right. }
  cbn [solveDigits]. rewrite bind_cons. unfold branch at 1.
  destruct (isValidPlacement b (row p) (col p) v) eqn:Hok; [|done].
  cbn [negb]. fold (next v). rewrite (Hrec v); [|by left|done].
  destruct (sols (next v)) as [|s l]; [|done].
  cbn [firstOf]. by rewrite next_restore.
Qed.

Lemma countDigits_total recur (limit : Z) (ds : list CellValue) (n : Z) :
  n < limit ->
  (forall v n', v ∈ ds -> isValidPlacement b (row p) (col p) v = true ->
     n' < limit ->
     exists b', recur (next v, n')
                = Some (b', Z.min (n' + Z.of_nat (length (sols (next v)))) limit)
       /\ (n' + Z.of_nat (length (sols (next v))) < limit -> b' = next v)) ->
  exists b', countDigits recur limit (row p) (col p) ds (b, n)
             = Some (b', Z.min (n + Z.of_nat (length (ds ≫= branch))) limit)
    /\ (n + Z.of_nat (length (ds ≫= branch)) < limit -> b' = b).
Proof.
  revert n. induction ds as [|v ds IH]; intros n Hn Hrec.
  { exists b. cbn. split; [f_equal; f_equal; lia|done]. }
  assert (forall n1, n1 < limit ->
    exists b', countDigits recur limit (row p) (col p) ds (b, n1)
               = Some (b', Z.min (n1 + Z.of_nat (length (ds ≫= branch))) limit)
      /\ (n1 + Z.of_nat (length (ds ≫= branch)) < limit -> b' = b)) as IH'.
  { intros n1 Hn1. apply IH; [done|].
    intros w n' Hw. apply Hrec. by right. }
  cbn [countDigits]. rewrite bind_cons, length_app. unfold branch at 1 3.
  destruct (isValidPlacement b (row p) (col p) v) eqn:Hok.
  2:{ cbn [negb length]. destruct (IH' n Hn) as (b' & -> & Hb').
      exists b'. split; [f_equal; f_equal; lia|]. intros ?. apply Hb'. lia. }
  cbn [negb]. fold (next v).
  destruct (Hrec v n) as (b1 & -> & Hb1); [by left|done..|].
  case_bool_decide as Hstop.
  - exists b1. split; [f_equal; f_equal; lia|lia].
  - rewrite Hb1 by lia. rewrite next_restore.
    destruct (IH' (Z.min (n + Z.of_nat (length (sols (next v)))) limit))
      as (b' & -> & Hb'); [lia|].
    exists b'. split; [f_equal; f_equal; lia|]. intros ?. apply Hb'. lia.
Qed.

Lemma fillDigits_total recur (ds : list CellValue) (g : Rng) :
  (forall v g1, v ∈ ds -> isValidPlacement b (row p) (col p) v = true ->
     (exists s g2, recur (next v, g1) = Some (true, (s, g2))
                   /\ s ∈ sols (next v))
     \/ (exists g2, recur (next v, g1) = Some (false, (next v, g2))
                   /\ sols (next v) = [])) ->
  (exists s g', fillDigits recur (row p) (col p) ds (b, g)
                = Some (true, (s, g')) /\ s ∈ ds ≫= branch)
  \/ (exists g', fillDigits recur (row p) (col p) ds (b, g)
                 = Some (false, (b, g')) /\ ds ≫= branch = []).
Proof.
  revert g. induction ds as [|v ds IH]; intros g Hrec.
  { right. by exists g. }
  assert (forall g1,
    (exists s g', fillDigits recur (row p) (col p) ds (b, g1)
                  = Some (true, (s, g')) /\ s ∈ ds ≫= branch)
    \/ (exists g', fillDigits recur (row p) (col p) ds (b, g1)
                   = Some (false, (b, g')) /\ ds ≫= branch = [])) as IH'.
  { intros g1. apply IH. intros w g2 Hw. apply Hrec. by right. }
  cbn [fillDigits]. rewrite bind_cons. unfold branch at 1 3.
  destruct (isValidPlacement b (row p) (col p) v) eqn:Hok.
  2:{ cbn [negb]. apply IH'. }
  cbn [negb]. fold (next v).
  destruct (Hrec v g) as [(s & g2 & -> & Hs)|(g2 & -> & Hnil)];
    [by left|done|..].
  - left. exists s, g2. split; [done|]. apply elem_of_app. by left.
  - rewrite next_restore, Hnil. apply IH'.
Qed.
End Loops.

Lemma solveBacktrack_first (fuel : nat) (b : Board) :
  (emptyCount b < fuel)%nat ->
  solveBacktrack fuel b = Some (firstOf b (solutions fuel b)).
Proof.
  revert b. induction fuel as [|fuel IH]; intros b Hfuel; [lia|].
  cbn [solveBacktrack solutions].
  destruct (findEmptyCell b) as [p|] eqn:Hfind; [|done].
  apply findEmptyCell_Some in Hfind as [Hp Hcell].
  apply (solveDigits_first b p Hcell (solutions fuel)).
  intros v Hv%elem_digits _. apply IH.
  pose proof (emptyCount_setCell b p v Hp Hcell). lia.
Qed.

Lemma countBacktrack_total (fuel : nat) (limit : Z) (b : Board) (n : Z) :
  (emptyCount b < fuel)%nat -> n < limit ->
  exists b', countBacktrack fuel limit (b, n)
             = Some (b', Z.min (n + Z.of_nat (length (solutions fuel b))) limit)
    /\ (n + Z.of_nat (length (solutions fuel b)) < limit -> b' = b).
Proof.
  revert b n. induction fuel as [|fuel IH]; intros b n Hfuel Hn; [lia|].
  cbn [countBacktrack solutions].
  rewrite bool_decide_eq_false_2 by lia.
  destruct (findEmptyCell b) as [p|] eqn:Hfind.
  - apply findEmptyCell_Some in Hfind as [Hp Hcell].
    apply (countDigits_total b p Hcell (solutions fuel)); [done|].
    intros v n' Hv%elem_digits _ Hn'. apply IH; [|done].
    pose proof (emptyCount_setCell b p v Hp Hcell). lia.
  - exists b. cbn [length]. split; [f_equal; f_equal; lia|done].
Qed.

Lemma cloneBoard_id (b : Board) : cloneBoard b = b.
Proof. apply map_id. Qed.

Lemma freezeBoard_id (b : Board) : freezeBoard b = b.
Proof. apply map_id. Qed.

Lemma solve_first (b : Board) :
  solve b = Some (head (solutions maxDepth b)).
Proof.
  unfold solve. rewrite cloneBoard_id.
  rewrite solveBacktrack_first by apply emptyCount_bound.
  by destruct (solutions maxDepth b).
Qed.

Lemma countSolutions_length (b : Board) (limit : Z) :
  0 <= limit ->
  countSolutions b limit
  = Some (Z.min (Z.of_nat (length (solutions maxDepth b))) limit).
Proof.
  intros Hlimit. unfold countSolutions. rewrite cloneBoard_id.
  destruct (decide (limit = 0)) as [->|Hpos].
  - cbn [maxDepth countBacktrack]. rewrite bool_decide_eq_true_2 by lia.
    f_equal. lia.
  - destruct (countBacktrack_total maxDepth limit b 0)
      as (b' & -> & _); [apply emptyCount_bound|lia|].
    f_equal.
Qed.

(** ** [solve] and [countSolutions] on valid boards *)

Lemma Completion_isBoardComplete (b s : Board) :
  Completion b s -> isBoardComplete s = true.
Proof. intros ((_ & Hfull & Hvalid) & _). by apply isBoardComplete_true. Qed.

Lemma allFives_no_completion (s : Board) : ~ Completion allFives s.
Proof.
  intros ((_ & _ & Hvalid) & Hext & _).
  assert (forall c, (c < 9)%nat -> cellAt s (mkPosition 0 c) = Some 5) as H5.
  { intros c Hc. apply Hext; [apply inGrid_mk; lia| |done].
    unfold cellAt, cell, allFives. cbn [row col].
    rewrite lookup_replicate_2 by lia. by apply lookup_replicate_2. }
  apply (Hvalid (mkPosition 0 0) (mkPosition 0 1) 5).
  - apply inGrid_mk. lia.
  - split; [apply inGrid_mk; lia|]. split; [done|by left].
  - done.
  - apply H5. lia.
  - apply H5. lia.
Qed.

Lemma Shape_allFives : Shape allFives.
Proof. split; [reflexivity|]. repeat constructor. Qed.

Lemma Shape_PUZZLE : Shape PUZZLE.
Proof. split; [reflexivity|]. repeat constructor. Qed.

(** C3 does not hold for every board: on a full board that breaks the
    rules [solve] finds no empty cell and hands the board back, although
    it is not solved and has no valid completion. *)
Lemma solve_allFives :
  Shape allFives
  /\ solve allFives = Some (Some allFives)
  /\ isBoardComplete allFives = false
  /\ ~ solve_spec allFives.
Proof.
  split; [apply Shape_allFives|]. split; [reflexivity|].
  split; [reflexivity|].
  intros (r & Hr & Hspec). change (solve allFives) with
    (Some (Some allFives)) in Hr. injection Hr as <-.
  destruct Hspec as [Hc _]. by apply allFives_no_completion in Hc.
Qed.

(** C3, for boards without conflicts: on a 9x9 board whose filled cells
    do not conflict, [solve] returns a board that completes the input and
    passes [isBoardComplete], or it returns [null]; it returns [null]
    exactly when the input has no valid completion. *)
Theorem solve_valid_board (b : Board) :
  Shape b -> getConflicts b = [] -> solve_spec b.
Proof.
  intros Hshape Hvalid%getConflicts_nil.
  destruct (solutions_spec maxDepth b (emptyCount_bound b) Hshape Hvalid)
    as [_ Hsols].
  unfold solve_spec. rewrite solve_first. eexists. split; [done|].
  destruct (solutions maxDepth b) as [|s l] eqn:E; cbn [head].
  - intros s Hs%Hsols. by apply elem_of_nil in Hs.
  - assert (Completion b s) as Hs by (apply Hsols; by left).
    split; [done|]. by eapply Completion_isBoardComplete.
Qed.

Lemma solve_valid_board_witness : solve_spec PUZZLE.
Proof.
  apply (solve_valid_board PUZZLE);
    [split; [reflexivity|repeat constructor]|vm_compute; reflexivity].
Defined.

(** C4 does not hold for every board: on the same full board the
    traversal counts one solution, although the board has no valid
    completion. *)
Lemma countSolutions_allFives :
  Shape allFives
  /\ countSolutions allFives 2 = Some 1
  /\ ~ countSolutions_spec allFives 2.
Proof.
  split; [apply Shape_allFives|]. split; [reflexivity|].
  intros (l & _ & Hl & Hcount).
  destruct l as [|s l].
  - change (countSolutions allFives 2) with (Some 1) in Hcount.
    discriminate.
  - apply (allFives_no_completion s). apply Hl. by left.
Qed.

(** C4, for boards without conflicts: on a 9x9 board whose filled cells
    do not conflict and for a limit that is not negative, [countSolutions]
    returns the number of distinct valid completions of the board, capped
    at the limit. *)
Theorem countSolutions_valid_board (b : Board) (limit : Z) :
  Shape b -> getConflicts b = [] -> 0 <= limit ->
  countSolutions_spec b limit.
Proof.
  intros Hshape Hvalid%getConflicts_nil Hlimit.
  destruct (solutions_spec maxDepth b (emptyCount_bound b) Hshape Hvalid)
    as [Hnodup Hsols].
  exists (solutions maxDepth b).
  split; [done|]. split; [done|]. by apply countSolutions_length.
Qed.

Lemma countSolutions_valid_board_witness : countSolutions_spec PUZZLE 2.
Proof.
  apply (countSolutions_valid_board PUZZLE 2);
    [split; [reflexivity|repeat constructor]|vm_compute; reflexivity|lia].
Defined.

Lemma countSolutions_le_limit (b : Board) (limit : Z) :
  0 <= limit -> exists n, countSolutions b limit = Some n /\ 0 <= n <= limit.
Proof.
  intros Hlimit. rewrite countSolutions_length by done.
  eexists. split; [done|]. lia.
Qed.

(** ** The shuffle permutes its array *)

Lemma insert_Permutation {A : Type} (l : list A) (j : nat) (a y : A) :
  l !! j = Some y -> y :: <[j := a]> l ≡ₚ a :: l.
Proof.
  revert j. induction l as [|b l IH]; intros [|j] Hj; try done.
  - injection Hj as ->. apply perm_swap.
  - cbn in Hj. cbn [list_insert]. change (<[S j := a]> (b :: l))
      with (b :: <[j := a]> l).
    rewrite perm_swap, (IH j Hj). apply perm_swap.
Qed.

Lemma swap_Permutation {A : Type} (arr : list A) (i j : nat) :
  swap arr i j ≡ₚ arr.
Proof.
  unfold swap. destruct (arr !! i) as [x|] eqn:Hi; [|done].
  destruct (arr !! j) as [y|] eqn:Hj; [|done].
  revert i j Hi Hj. induction arr as [|a l IH]; intros [|i] [|j] Hi Hj;
    try done.
  - injection Hi as ->. injection Hj as ->. done.
  - injection Hi as ->. cbn in Hj.
    change (y :: <[j := x]> l ≡ₚ x :: l). by apply insert_Permutation.
  - injection Hj as ->. cbn in Hi.
    change (x :: <[i := y]> l ≡ₚ y :: l). by apply insert_Permutation.
  - cbn in Hi, Hj.
    change (a :: <[j := x]> (<[i := y]> l) ≡ₚ a :: l). f_equiv. by apply IH.
Qed.

Lemma shuffleFrom_Permutation {A : Type} (i : nat) (arr : list A) (g : Rng) :
  (shuffleFrom i arr g).1 ≡ₚ arr.
Proof.
  revert arr g. induction i as [|i IH]; intros arr g; [done|].
  cbn [shuffleFrom]. destruct (randomBelow (S i + 1) g) as [j g'].
  rewrite IH. apply swap_Permutation.
Qed.

Lemma shuffle_Permutation {A : Type} (arr : list A) (g : Rng) :
  (shuffle arr g).1 ≡ₚ arr.
Proof. apply shuffleFrom_Permutation. Qed.

(** ** Filling the empty grid *)

Lemma find_ext_eq {A : Type} (f g : A -> bool) (l : list A) :
  (forall x, f x = g x) -> List.find f l = List.find g l.
Proof.
  intros Hfg. induction l as [|a l IH]; [done|]. simpl.
  by rewrite Hfg, IH.
Qed.

Lemma firstUnfilled_findEmptyCell (b : Board) :
  firstUnfilled b = findEmptyCell b.
Proof. apply find_ext_eq. intros p. apply negb_involutive. Qed.

Lemma fillCompleteGrid_total (fuel : nat) (b : Board) (g : Rng) :
  (emptyCount b < fuel)%nat ->
  (exists s g', fillCompleteGrid fuel (b, g) = Some (true, (s, g'))
                /\ s ∈ solutions fuel b)
  \/ (exists g', fillCompleteGrid fuel (b, g) = Some (false, (b, g'))
                 /\ solutions fuel b = []).
Proof.
  revert b g. induction fuel as [|fuel IH]; intros b g Hfuel; [lia|].
  cbn [fillCompleteGrid solutions]. rewrite firstUnfilled_findEmptyCell.
  destruct (findEmptyCell b) as [p|] eqn:Hfind.
  - apply findEmptyCell_Some in Hfind as [Hp Hcell].
    pose proof (shuffle_Permutation digits g) as Hperm.
    destruct (shuffle digits g) as [ds g1]. cbn [fst] in Hperm.
    destruct (fillDigits_total b p Hcell (solutions fuel)
                (fillCompleteGrid fuel) ds g1) as [Hyes|Hno].
    + intros v g2 Hv _. apply IH.
      rewrite Hperm in Hv. apply elem_digits in Hv.
      pose proof (emptyCount_setCell b p v Hp Hcell). lia.
    + left. destruct Hyes as (s & g' & Hrun & Hs). exists s, g'.
      split; [done|]. by rewrite <- Hperm.
    + right. destruct Hno as (g' & Hrun & Hnil). exists g'.
      split; [done|]. apply Permutation_nil_r. rewrite <- Hperm.
      by rewrite Hnil.
  - left. exists b, g. split; [done|]. by left.
Qed.

Lemma Shape_createEmptyBoard : Shape createEmptyBoard.
Proof. split; [reflexivity|]. repeat constructor. Qed.

Lemma cellAt_createEmptyBoard (p : Position) :
  inGrid p -> cellAt createEmptyBoard p = Some 0.
Proof.
  intros [Hr Hc]. unfold cellAt, cell, createEmptyBoard.
  rewrite lookup_replicate_2 by done. by apply lookup_replicate_2.
Qed.

Lemma Valid_createEmptyBoard : Valid createEmptyBoard.
Proof.
  intros p q v Hp _ Hv Hcp. rewrite cellAt_createEmptyBoard in Hcp by done.
  congruence.
Qed.

Lemma Solved_solvedGrid : Solved solvedGrid.
Proof.
  split; [split; [reflexivity|repeat constructor]|].
  apply isBoardComplete_true. vm_compute. reflexivity.
Qed.

Lemma Completion_createEmptyBoard (s : Board) :
  Completion createEmptyBoard s
  <-> Solved s
      /\ forall p, inGrid p -> exists v, cellAt s p = Some v /\ 1 <= v <= 9.
Proof.
  split.
  - intros (Hsolved & _ & Hdig). split; [done|]. intros p Hp.
    apply Hdig; [done|]. by apply cellAt_createEmptyBoard.
  - intros [Hsolved Hdig]. split; [done|]. split.
    + intros p v Hp Hcp Hv.
      rewrite cellAt_createEmptyBoard in Hcp by done. congruence.
    + intros p Hp _. by apply Hdig.
Qed.

(** A complete valid fill of the empty grid exists. *)
Lemma Completion_solvedGrid : Completion createEmptyBoard solvedGrid.
Proof.
  apply Completion_createEmptyBoard. split; [apply Solved_solvedGrid|].
  intros p Hp%elem_allPositions.
  assert (forallb (fun p => match cellAt solvedGrid p with
                            | Some v => bool_decide (1 <= v <= 9)
                            | None => false
                            end) allPositions = true) as Hall
    by (vm_compute; reflexivity).
  rewrite forallb_forall in Hall. specialize (Hall p Hp).
  destruct (cellAt solvedGrid p) as [v|]; [|done].
  exists v. split; [done|]. by apply bool_decide_eq_true in Hall.
Qed.

Lemma generateFullGrid_total (g : Rng) :
  exists sol g', fillCompleteGrid maxDepth (createEmptyBoard, g)
                 = Some (true, (sol, g'))
    /\ generateFullGrid g = Some (sol, g')
    /\ Completion createEmptyBoard sol.
Proof.
  destruct (solutions_spec maxDepth createEmptyBoard
              (emptyCount_bound _) Shape_createEmptyBoard
              Valid_createEmptyBoard) as [_ Hsols].
  unfold generateFullGrid.
  destruct (fillCompleteGrid_total maxDepth createEmptyBoard g
              (emptyCount_bound _)) as [(s & g' & Hrun & Hs)|(g' & _ & Hnil)].
  - exists s, g'. rewrite Hrun. split; [done|]. split; [done|].
    by apply Hsols.
  - pose proof (proj2 (Hsols solvedGrid) Completion_solvedGrid) as Hin.
    rewrite Hnil in Hin. destruct (proj1 (elem_of_nil _) Hin).
Qed.

(** ** Carving the puzzle *)

Lemma Full_findEmptyCell (b : Board) : Full b -> findEmptyCell b = None.
Proof.
  intros Hfull. destruct (findEmptyCell b) as [p|] eqn:Hfind; [|done].
  apply findEmptyCell_Some in Hfind as [Hp Hcell].
  destruct (Hfull p Hp) as (v & ? & ?). congruence.
Qed.

(** A full board is counted once. *)
Lemma countSolutions_Full (b : Board) :
  Full b -> countSolutions b 2 = Some 1.
Proof.
  intros Hfull%Full_findEmptyCell. rewrite countSolutions_length by lia.
  cbn [maxDepth solutions]. by rewrite Hfull.
Qed.

Lemma Carved_refl (sol : Board) : Shape sol -> Carved sol sol.
Proof. intros Hshape. split; [done|]. intros p _. by right. Qed.

Lemma Carved_clear (sol b : Board) (p : Position) :
  Carved sol b -> Carved sol (setCell b (row p) (col p) 0).
Proof.
  intros [Hshape Hcells]. split; [by apply Shape_setCell|].
  intros q Hq. destruct (decide (inGrid p)) as [Hp|Hp].
  - rewrite cellAt_setCell by by apply Shape_cellAt.
    destruct (decide (q = p)); [by left|by apply Hcells].
  - replace (setCell b (row p) (col p) 0) with b; [by apply Hcells|].
    unfold setCell. destruct (b !! row p) as [cells|] eqn:Hrow; [|done].
    destruct Hshape as [Hlen Hrows].
    pose proof (lookup_lt_Some _ _ _ Hrow) as Hr.
    eapply Forall_lookup_1 in Hrows; eauto. cbn beta in Hrows.
    rewrite (list_insert_ge cells); [by rewrite list_insert_id|].
    unfold inGrid in Hp. lia.
Qed.

Section Removal.
Variables (sol : Board) (targetGivens : Z).

(** What every board of the removal loop satisfies: it is carved out of
    the solution and passes the uniqueness test. *)
Let Kept (b : Board) : Prop :=
  Carved sol b /\ countSolutions b 2 = Some 1.

Lemma removeLoop_keeps (ps : list Position) (b : Board) (n : Z) :
  Kept b ->
  exists b', removeLoop targetGivens ps b n = Some b' /\ Kept b'.
Proof.
  revert b n. induction ps as [|p ps IH]; intros b n Hb.
  { by exists b. }
  cbn [removeLoop]. case_bool_decide; [by exists b|].
  destruct (cell b (row p) (col p)) as [value|] eqn:Hcell; [|by exists b].
  destruct (countSolutions_le_limit (setCell b (row p) (col p) 0) 2)
    as (k & Hk & _); [lia|].
  rewrite Hk. case_bool_decide as Hone.
  - apply IH. subst k. split; [|done]. apply Carved_clear, Hb.
  - rewrite setCell_restore by done. by apply IH.
Qed.
End Removal.

(** What [generatePuzzle] hands out: a full grid produced by the fill, and
    a board carved out of it that passes the uniqueness test. *)
Lemma generatePuzzle_total (d : Difficulty) (g : Rng) :
  exists puz sol g',
    generatePuzzle d g = Some (mkGeneratedPuzzle puz sol, g')
    /\ Completion createEmptyBoard sol
    /\ Carved sol puz
    /\ countSolutions puz 2 = Some 1.
Proof.
  destruct (generateFullGrid_total g) as (sol & g1 & _ & Hgen & Hsol).
  unfold generatePuzzle. rewrite Hgen.
  unfold removeCellsKeepingUniqueSolution.
  destruct (shuffle allPositions g1) as [positions g2].
  rewrite cloneBoard_id.
  destruct Hsol as (Hsolved & Hrest).
  destruct (removeLoop_keeps sol (GIVENS_BY_DIFFICULTY d) positions sol
              (Z.of_nat (GRID_SIZE * GRID_SIZE)))
    as (puz & -> & Hcarved & Hcount).
  { split; [apply Carved_refl, Hsolved|].
    apply countSolutions_Full, Hsolved. }
  exists puz, sol, g2. rewrite !freezeBoard_id. done.
Qed.

(** A board carved out of a solved grid has that grid among its
    completions. *)
Lemma Carved_Completion (sol b : Board) :
  Completion createEmptyBoard sol -> Carved sol b ->
  Valid b /\ Completion b sol.
Proof.
  intros [Hsolved Hdig]%Completion_createEmptyBoard [Hshape Hcells].
  assert (Extends b sol) as Hext.
  { intros p v Hp Hcp Hv. destruct (Hcells p Hp) as [Hz|Heq]; congruence. }
  split.
  - apply (Valid_below b sol); [done|apply Hsolved].
  - split; [done|]. split; [done|]. intros p Hp _. by apply Hdig.
Qed.

(** A carved board that passes the uniqueness test has the solved grid as
    its only completion, and the search finds it. *)
Lemma Carved_unique (sol b : Board) :
  Completion createEmptyBoard sol -> Carved sol b ->
  countSolutions b 2 = Some 1 ->
  solutions maxDepth b = [sol].
Proof.
  intros Hsol Hcarved Hcount.
  destruct (Carved_Completion sol b Hsol Hcarved) as [Hvalid Hcompl].
  destruct (solutions_spec maxDepth b (emptyCount_bound b)
              (proj1 Hcarved) Hvalid) as [_ Hsols].
  rewrite countSolutions_length in Hcount by lia.
  apply Hsols in Hcompl.
  destruct (solutions maxDepth b) as [|s [|s' l]] eqn:E.
  - destruct (proj1 (elem_of_nil _) Hcompl).
  - apply list_elem_of_singleton in Hcompl. by subst.
  - cbn [length] in Hcount. injection Hcount as Hcount. lia.
Qed.

(** C5: the solution handed out by [generatePuzzle] passes
    [isBoardComplete] and has no conflicts; the fill of the empty grid
    always returns [true] and leaves such a grid. *)
Theorem generatePuzzle_solution_solved (d : Difficulty) (g : Rng) :
  (exists gp g', generatePuzzle d g = Some (gp, g')
     /\ isBoardComplete (solution gp) = true
     /\ getConflicts (solution gp) = [])
  /\ (exists grid g', fillCompleteGrid maxDepth (createEmptyBoard, g)
                      = Some (true, (grid, g'))
        /\ generateFullGrid g = Some (grid, g')
        /\ isBoardComplete grid = true
        /\ getConflicts grid = []).
Proof.
  split.
  - destruct (generatePuzzle_total d g) as (puz & sol & g' & Hgen & Hsol & _).
    exists (mkGeneratedPuzzle puz sol), g'. split; [done|].
    cbn [solution]. split; [by eapply Completion_isBoardComplete|].
    apply getConflicts_nil, Hsol.
  - destruct (generateFullGrid_total g) as (sol & g' & Hfill & Hgen & Hsol).
    exists sol, g'. split; [done|]. split; [done|].
    split; [by eapply Completion_isBoardComplete|].
    apply getConflicts_nil, Hsol.
Qed.

(** C1: for every difficulty and every run of the random source, the
    puzzle returned by [generatePuzzle] passes [hasUniqueSolution], and it
    has exactly one valid completion. *)
Theorem generatePuzzle_unique (d : Difficulty) (g : Rng) :
  exists gp g', generatePuzzle d g = Some (gp, g')
    /\ hasUniqueSolution (puzzle gp) = Some true
    /\ exists s, Completion (puzzle gp) s
         /\ forall s', Completion (puzzle gp) s' -> s' = s.
Proof.
  destruct (generatePuzzle_total d g)
    as (puz & sol & g' & Hgen & Hsol & Hcarved & Hcount).
  exists (mkGeneratedPuzzle puz sol), g'. split; [done|]. cbn [puzzle].
  split; [unfold hasUniqueSolution; by rewrite Hcount|].
  destruct (Carved_Completion sol puz Hsol Hcarved) as [Hvalid Hcompl].
  destruct (solutions_spec maxDepth puz (emptyCount_bound puz)
              (proj1 Hcarved) Hvalid) as [_ Hsols].
  exists sol. split; [done|]. intros s' Hs'%Hsols.
  rewrite (Carved_unique sol puz) in Hs' by done.
  by apply list_elem_of_singleton in Hs'.
Qed.

(** C2: for every difficulty and every run of the random source, [solve]
    succeeds on the returned puzzle and returns the paired solution. *)
Theorem generatePuzzle_solve (d : Difficulty) (g : Rng) :
  exists gp g', generatePuzzle d g = Some (gp, g')
    /\ solve (puzzle gp) = Some (Some (solution gp)).
Proof.
  destruct (generatePuzzle_total d g)
    as (puz & sol & g' & Hgen & Hsol & Hcarved & Hcount).
  exists (mkGeneratedPuzzle puz sol), g'. split; [done|].
  cbn [puzzle solution]. rewrite solve_first.
  by rewrite (Carved_unique sol puz).
Qed.

(** ** The structural gate for untyped input *)

Lemma rejectsCell_decodes (v : JSValue) (z : Z) :
  cellDecodes v z -> 0 <= z <= 9 -> rejectsCell v = false.
Proof.
  intros (q & -> & Hq) Hz. unfold rejectsCell, numLt, numGt.
  unfold QArith_base.Qeq, QArith_base.Qle_bool in *.
  destruct q as [n d]. cbn in *.
  apply orb_false_iff. split; apply negb_false_iff, Z.leb_le; nia.
Qed.

(** Every value that meets the structural contract passes the gate. *)
Lemma isValidBoardShape_complete (v : JSValue) :
  ShapeValid v -> isValidBoardShape v = true.
Proof.
  intros (b & (rows & -> & Hrows) & [Hlen Hlens] & Hrange).
  unfold isValidBoardShape.
  rewrite bool_decide_eq_true_2
    by (by rewrite (Forall2_length _ _ _ Hrows)).
  cbn [negb]. apply forallb_forall. intros r Hr%list_elem_of_In.
  apply list_elem_of_lookup in Hr as [i Hi].
  destruct (Forall2_lookup_l _ _ _ _ _ Hrows Hi)
    as (cells & Hcells & (vs & -> & Hvs)).
  unfold acceptsRow.
  eapply Forall_lookup_1 in Hlens; eauto.
  eapply Forall_lookup_1 in Hrange; eauto. cbn beta in Hlens.
  rewrite bool_decide_eq_true_2
    by (by rewrite (Forall2_length _ _ _ Hvs)).
  cbn [negb]. apply negb_true_iff, not_true_iff_false.
  intros (w & Hw%list_elem_of_In & Hrej)%existsb_exists.
  apply list_elem_of_lookup in Hw as [j Hj].
  destruct (Forall2_lookup_l _ _ _ _ _ Hvs Hj) as (z & Hz & Hdec).
  eapply Forall_lookup_1 in Hrange; eauto.
  rewrite (rejectsCell_decodes w z) in Hrej; done.
Qed.

Lemma rejectsCell_false (c : JSValue) :
  rejectsCell c = false
  <-> exists n, c = JSNum n /\ numLt n 0 = false /\ numGt n 9 = false.
Proof.
  split.
  - destruct c as [| | |n| | |]; try done. cbn.
    intros [? ?]%orb_false_iff. by exists n.
  - intros (n & -> & H0 & H9). cbn. by rewrite H0, H9.
Qed.

Lemma acceptsRow_true (r : JSValue) :
  acceptsRow r = true
  <-> exists cells, r = JSArray cells /\ length cells = GRID_SIZE
        /\ Forall (fun c =>
              exists n, c = JSNum n
                        /\ numLt n 0 = false /\ numGt n 9 = false) cells.
Proof.
  split.
  - destruct r as [| | | | |cells|]; try done. cbn [acceptsRow].
    case_bool_decide as Hlen; [|done]. cbn [negb].
    intros Hall%negb_true_iff. exists cells. split; [done|]. split; [done|].
    apply Forall_forall. intros c Hc%list_elem_of_In.
    apply rejectsCell_false. apply not_true_iff_false. intros Hrej.
    apply not_true_iff_false in Hall. apply Hall. apply existsb_exists.
    by exists c.
  - intros (cells & -> & Hlen & Hall). cbn [acceptsRow].
    rewrite bool_decide_eq_true_2 by done. cbn [negb].
    apply negb_true_iff, not_true_iff_false.
    intros (c & Hc%list_elem_of_In & Hrej)%existsb_exists.
    rewrite Forall_forall in Hall. apply Hall, rejectsCell_false in Hc.
    congruence.
Qed.

(** What the gate accepts. *)
Lemma isValidBoardShape_true (v : JSValue) :
  isValidBoardShape v = true <-> Accepted v.
Proof.
  split.
  - destruct v as [| | | | |rows|]; try done. cbn [isValidBoardShape].
    case_bool_decide as Hlen; [|done]. cbn [negb].
    rewrite forallb_forall. intros Hall. exists rows.
    split; [done|]. split; [done|]. apply Forall_forall.
    intros r Hr%list_elem_of_In. by apply acceptsRow_true, Hall.
  - intros (rows & -> & Hlen & Hall). cbn [isValidBoardShape].
    rewrite bool_decide_eq_true_2 by done. cbn [negb].
    apply forallb_forall. intros r Hr%list_elem_of_In.
    rewrite Forall_forall in Hall. by apply acceptsRow_true, Hall.
Qed.

(** [NaN] compares neither below 0 nor above 9, so a grid of [NaN] passes
    as well. *)
Example isValidBoardShape_nanBoard : isValidBoardShape nanBoard = true.
Proof. reflexivity. Qed.

(** C7: [isValidBoardShape] should accept exactly the values that decode
    to 9 rows of 9 integers in [0,9]; it accepts a 9x9 grid whose first
    cell is 1.5, which does not decode to integers. *)
Theorem isValidBoardShape_accepts_fraction :
  isValidBoardShape fractionBoard = true /\ ~ ShapeValid fractionBoard.
Proof.
  split; [reflexivity|].
  intros (b & (rows & Heq & Hrows) & _). injection Heq as <-.
  apply Forall2_cons_inv_l in Hrows
    as (cells & b' & (vs & Heq & Hvs) & _ & ->).
  injection Heq as <-.
  apply Forall2_cons_inv_l in Hvs as (z & cells' & (q & Heq & Hq) & _ & ->).
  injection Heq as <-. unfold QArith_base.Qeq in Hq. cbn in Hq. lia.
Qed.

(** ** [solve] on the store: the caller's board is not written to *)

Lemma Frame_refl (ls : list nat) (h : list Heap.object) : Frame ls h h.
Proof. by split. Qed.

Lemma Frame_trans (ls : list nat) (h1 h2 h3 : list Heap.object) :
  Frame ls h1 h2 -> Frame ls h2 h3 -> Frame ls h1 h3.
Proof.
  intros [Hlen1 H1] [Hlen2 H2]. split; [congruence|].
  intros l Hl. by rewrite H2, H1.
Qed.

Lemma readBoard_Rep (h : list Heap.object) (m : nat) (ls : list nat)
    (grid : Board) :
  Heap.Rep h m ls grid -> Heap.readBoard h m = Some grid.
Proof.
  intros (Hm & _ & Hrows). unfold Heap.readBoard. rewrite Hm.
  apply mapM_Some_2. eapply Forall2_impl; [exact Hrows|].
  intros l cells Hl. unfold Heap.readRow. by rewrite Hl.
Qed.

(** A write through the board reference changes the denoted grid as
    [setCell] does, and touches no object but the rows it owns. *)
Lemma writeCell_Rep (h : list Heap.object) (m : nat) (ls : list nat)
    (grid : Board) (r c : nat) (v : CellValue) :
  Heap.Rep h m ls grid ->
  Heap.Rep (Heap.writeCell h m r c v) m ls (setCell grid r c v)
  /\ Frame ls h (Heap.writeCell h m r c v).
Proof.
  intros (Hm & Hnd & Hrows). unfold Heap.writeCell. rewrite Hm.
  destruct (ls !! r) as [l|] eqn:Hl.
  - destruct (Forall2_lookup_l _ _ _ r l Hrows Hl) as (cells & Hg & Hcells).
    rewrite Hcells. unfold setCell. rewrite Hg.
    assert (l <> m) as Hlm by (intros ->; congruence).
    split; [split; [|split; [done|]]|split].
    + by rewrite list_lookup_insert_ne.
    + apply Forall2_same_length_lookup_2.
      { rewrite length_insert. by eapply Forall2_length. }
      intros i x y Hx Hy. destruct (decide (i = r)) as [->|Hne].
      * rewrite list_lookup_insert_eq in Hy by by eapply lookup_lt_Some.
        injection Hy as <-. assert (x = l) as -> by congruence.
        apply list_lookup_insert_eq. by eapply lookup_lt_Some.
      * rewrite list_lookup_insert_ne in Hy by done.
        assert (x <> l) as Hxl.
        { intros ->. apply Hne. by eapply NoDup_lookup. }
        rewrite list_lookup_insert_ne by done.
        by eapply (Forall2_lookup_lr _ _ _ i) in Hrows.
    + apply length_insert.
    + intros l' Hl'. apply list_lookup_insert_ne. intros ->.
      apply Hl'. by eapply list_elem_of_lookup_2.
  - assert (grid !! r = None) as Hg.
    { apply lookup_ge_None. rewrite <- (Forall2_length _ _ _ Hrows).
      by apply lookup_ge_None. }
    unfold setCell. rewrite Hg. split; [done|apply Frame_refl].
Qed.

Section Refinement.
Variables (m : nat) (ls : list nat).

Let refines := refines m ls.

Lemma refines_Frame (h0 h : list Heap.object) hres pres :
  Frame ls h0 h -> refines h hres pres -> refines h0 hres pres.
Proof.
  intros Hframe. unfold refines. destruct pres as [[ok grid']|]; [|done].
  intros (h' & ? & ? & ?). exists h'. split; [done|]. split; [done|].
  by eapply Frame_trans.
Qed.

Lemma solveDigits_refines hrecur precur (r c : nat) (ds : list CellValue) :
  (forall h grid, Heap.Rep h m ls grid ->
     refines h (hrecur h) (precur grid)) ->
  forall h grid, Heap.Rep h m ls grid ->
    refines h (Heap.solveDigits hrecur m r c ds h)
              (solveDigits precur r c ds grid).
Proof.
  intros Hrec. induction ds as [|v ds IH]; intros h grid Hrep.
  { exists h. split; [done|]. split; [done|apply Frame_refl]. }
  cbn [Heap.solveDigits solveDigits]. rewrite (readBoard_Rep _ _ _ _ Hrep).
  destruct (negb (isValidPlacement grid r c v)); [by apply IH|].
  destruct (writeCell_Rep h m ls grid r c v Hrep) as [Hrep1 Hframe1].
  specialize (Hrec _ _ Hrep1). unfold refines in Hrec.
  destruct (precur (setCell grid r c v)) as [[[|] grid']|].
  - destruct Hrec as (h' & -> & Hrep' & Hframe'). exists h'.
    split; [done|]. split; [done|]. by eapply Frame_trans.
  - destruct Hrec as (h' & -> & Hrep' & Hframe').
    destruct (writeCell_Rep h' m ls grid' r c 0 Hrep') as [Hrep2 Hframe2].
    eapply refines_Frame; [|by apply IH].
    eapply Frame_trans; [done|]. by eapply Frame_trans.
  - by rewrite Hrec.
Qed.

Lemma solveBacktrack_refines (fuel : nat) :
  forall h grid, Heap.Rep h m ls grid ->
    refines h (Heap.solveBacktrack fuel m h) (solveBacktrack fuel grid).
Proof.
  induction fuel as [|fuel IH]; intros h grid Hrep; [done|].
  cbn [Heap.solveBacktrack solveBacktrack].
  rewrite (readBoard_Rep _ _ _ _ Hrep).
  destruct (findEmptyCell grid) as [p|].
  - by apply solveDigits_refines.
  - exists h. split; [done|]. split; [done|apply Frame_refl].
Qed.
End Refinement.

Lemma readRow_app (h k : list Heap.object) (l : nat) (cells : list CellValue) :
  Heap.readRow h l = Some cells -> Heap.readRow (h ++ k) l = Some cells.
Proof.
  unfold Heap.readRow. destruct (h !! l) as [o|] eqn:Hl; [|done].
  by rewrite (lookup_app_l_Some _ _ _ _ Hl).
Qed.

Lemma copyRows_fresh (rows : list nat) :
  forall (grid : Board) (h : list Heap.object),
    Forall2 (fun l cells => Heap.readRow h l = Some cells) rows grid ->
    Heap.copyRows h rows
    = Some (seq (length h) (length rows), h ++ (Heap.Cells <$> grid)).
Proof.
  induction rows as [|l rows IH]; intros grid h Hrows.
  - apply Forall2_nil_inv_l in Hrows as ->. cbn. by rewrite app_nil_r.
  - apply Forall2_cons_inv_l in Hrows as (cells & grid' & Hl & Hrows & ->).
    cbn [Heap.copyRows]. rewrite Hl. unfold Heap.alloc.
    rewrite (IH grid' (h ++ [Heap.Cells cells])).
    + rewrite length_app, fmap_cons, <- app_assoc. cbn [length seq app].
      by rewrite Nat.add_1_r.
    + eapply Forall2_impl; [exact Hrows|]. intros; by apply readRow_app.
Qed.

(** The copy made by [cloneBoard] owns fresh rows that hold the grid of
    the original, and the objects of the original are as they were. *)
Lemma cloneBoard_Rep (h : list Heap.object) (board : nat) (grid : Board) :
  Heap.readBoard h board = Some grid ->
  exists m ls h1,
    Heap.cloneBoard h board = Some (m, h1)
    /\ Heap.Rep h1 m ls grid
    /\ (forall l, (l < length h)%nat -> h1 !! l = h !! l)
    /\ (forall l, l ∈ ls -> (length h <= l)%nat).
Proof.
  unfold Heap.readBoard, Heap.cloneBoard.
  destruct (h !! board) as [[rows|]|] eqn:Hboard; [|done..].
  intros Hrows%mapM_Some_1. rewrite (copyRows_fresh rows grid h Hrows).
  unfold Heap.alloc.
  set (h1 := h ++ (Heap.Cells <$> grid)).
  set (ls := seq (length h) (length rows)).
  exists (length h1), ls, (h1 ++ [Heap.Rows ls]).
  split; [done|]. split; [split; [|split]|split].
  - by apply list_lookup_middle.
  - apply NoDup_seq.
  - apply Forall2_same_length_lookup_2.
    { unfold ls. rewrite length_seq. by eapply Forall2_length. }
    intros i l cells Hl Hcells. apply lookup_seq in Hl as [-> Hi].
    apply lookup_app_l_Some. unfold h1.
    rewrite lookup_app_r by lia.
    replace (length h + i - length h)%nat with i by lia.
    by rewrite list_lookup_fmap, Hcells.
  - intros l Hl. unfold h1. rewrite <- app_assoc. by apply lookup_app_l.
  - intros l Hl. apply list_elem_of_lookup in Hl as [i Hi].
    apply lookup_seq in Hi as [-> _]. lia.
Qed.

(** C8: [solve] returns, and the store it leaves holds every object that
    existed before the call unchanged; so the caller's board denotes the
    same grid after the call.  The grid behind the returned reference is
    the board that [solve] computes on grids. *)
Theorem solve_leaves_input (h : list Heap.object) (board : nat)
    (grid : Board) :
  Heap.readBoard h board = Some grid ->
  exists res h',
    Heap.solve h board = Some (res, h')
    /\ (forall l, (l < length h)%nat -> h' !! l = h !! l)
    /\ Heap.readBoard h' board = Some grid
    /\ solve grid = Some (res ≫= Heap.readBoard h').
Proof.
  intros Hread.
  destruct (cloneBoard_Rep h board grid Hread)
    as (m & ls & h1 & Hclone & Hrep & Hold & Hfresh).
  pose proof (solveBacktrack_refines m ls maxDepth h1 grid Hrep) as Hrun.
  unfold solve. rewrite cloneBoard_id.
  rewrite (solveBacktrack_first maxDepth grid (emptyCount_bound grid)) in *.
  unfold Heap.solve. rewrite Hclone.
  set (r := firstOf grid (solutions maxDepth grid)) in *.
  destruct r as [ok grid'].
  destruct Hrun as (h2 & -> & Hrep2 & [Hlen Hframe]).
  assert (forall l, (l < length h)%nat -> h2 !! l = h !! l) as Hsame.
  { intros l Hl. rewrite Hframe; [by apply Hold|].
    intros Hin%Hfresh. lia. }
  assert (Heap.readBoard h2 board = Some grid) as Hread2.
  { unfold Heap.readBoard in *.
    destruct (h !! board) as [[rows|]|] eqn:Hboard; [|done..].
    rewrite Hsame, Hboard by by eapply lookup_lt_Some.
    apply mapM_Some_2. apply mapM_Some_1 in Hread.
    eapply Forall2_impl; [exact Hread|]. intros l cells.
    unfold Heap.readRow. destruct (h !! l) eqn:Hl; [|done].
    by rewrite Hsame, Hl by by eapply lookup_lt_Some. }
  destruct ok.
  - exists (Some m), h2. split; [done|]. split; [done|]. split; [done|].
    cbn. by rewrite (readBoard_Rep _ _ _ _ Hrep2).
  - by exists None, h2.
Qed.

Lemma solve_leaves_input_witness :
  exists res h',
    Heap.solve puzzleStore 9 = Some (res, h')
    /\ (forall l, (l < length puzzleStore)%nat -> h' !! l = puzzleStore !! l)
    /\ Heap.readBoard h' 9 = Some PUZZLE
    /\ solve PUZZLE = Some (res ≫= Heap.readBoard h').
Proof.
  apply (solve_leaves_input puzzleStore 9 PUZZLE). reflexivity.
Defined.

(** * Further properties of the engine *)

(** ** The scan for an empty cell *)

Lemma find_first_index {A : Type} (f : A -> bool) (l : list A) (x : A) :
  List.find f l = Some x ->
  exists i, l !! i = Some x /\ f x = true
            /\ forall j y, (j < i)%nat -> l !! j = Some y -> f y = false.
Proof.
  induction l as [|a l IH]; [done|]. cbn [List.find].
  destruct (f a) eqn:Hfa.
  - intros [= ->]. exists 0%nat. split; [done|]. split; [done|]. lia.
  - intros (i & Hi & Hx & Hbefore)%IH. exists (S i).
    split; [done|]. split; [done|]. intros [|j] y Hj Hy.
    + injection Hy as <-. done.
    + apply (Hbefore j); [lia|done].
Qed.

(** Row-major numbering: the cell (r, c) is the (9r + c)-th the loops
    visit. *)
Lemma allPositions_lookup (p : Position) :
  inGrid p -> allPositions !! (9 * row p + col p)%nat = Some p.
Proof.
  intros Hp%elem_allPositions.
  assert (forallb (fun p => bool_decide
            (allPositions !! (9 * row p + col p)%nat = Some p))
            allPositions = true) as Hall by (vm_compute; reflexivity).
  rewrite forallb_forall in Hall.
  specialize (Hall p Hp). by apply bool_decide_eq_true in Hall.
Qed.

(** X1: [findEmptyCell] returns the first empty cell in row-major order:
    a grid position that holds 0, with no empty cell in an earlier row or
    earlier in the same row; it returns [null] exactly when no cell of the
    grid holds 0. *)
Theorem findEmptyCell_first (b : Board) :
  match findEmptyCell b with
  | Some p =>
      inGrid p /\ cellAt b p = Some 0
      /\ forall q, inGrid q ->
           (row q < row p \/ (row q = row p /\ col q < col p))%nat ->
           cellAt b q <> Some 0
  | None => forall q, inGrid q -> cellAt b q <> Some 0
  end.
Proof.
  destruct (findEmptyCell b) as [p|] eqn:Hfind.
  - pose proof (findEmptyCell_Some b p Hfind) as [Hp Hcell].
    split; [done|]. split; [done|]. intros q Hq Hlt Hempty.
    apply find_first_index in Hfind as (i & Hi & _ & Hbefore).
    assert (i = 9 * row p + col p)%nat as ->.
    { eapply NoDup_lookup; [|exact Hi|by apply allPositions_lookup].
      apply NoDup_ListNoDup, NoDup_allPositions. }
    specialize (Hbefore (9 * row q + col q)%nat q). cbn beta in Hbefore.
    apply cellIs_true in Hempty. rewrite Hbefore in Hempty; [done| |].
    + destruct Hq as [Hqr Hqc]. unfold GRID_SIZE in *. lia.
    + by apply allPositions_lookup.
  - intros q Hq. by apply findEmptyCell_None.
Qed.

(** ** What the checks of a finished or partial board mean *)

Lemma Full_iff_findEmptyCell (b : Board) :
  Shape b -> Full b <-> findEmptyCell b = None.
Proof.
  intros Hshape. split; [apply Full_findEmptyCell|].
  intros Hnone p Hp. destruct (Shape_cellAt b p Hshape Hp) as [v Hv].
  exists v. split; [done|]. intros ->. by apply (findEmptyCell_None b p).
Qed.

Lemma isValidPartialBoard_getConflicts (b : Board) :
  isValidPartialBoard b = true <-> getConflicts b = [].
Proof.
  unfold isValidPartialBoard. rewrite bool_decide_eq_true.
  by destruct (getConflicts b).
Qed.

(** X2: on a 9x9 board, [isBoardComplete] is true exactly when
    [findEmptyCell] finds nothing and [isValidPartialBoard] is true. *)
Theorem isBoardComplete_iff (b : Board) :
  Shape b ->
  isBoardComplete b = true
  <-> findEmptyCell b = None /\ isValidPartialBoard b = true.
Proof.
  intros Hshape.
  rewrite isBoardComplete_true, isValidPartialBoard_getConflicts.
  by rewrite getConflicts_nil, Full_iff_findEmptyCell.
Qed.

Lemma isBoardComplete_iff_witness :
  isBoardComplete solvedGrid = true
  <-> findEmptyCell solvedGrid = None
      /\ isValidPartialBoard solvedGrid = true.
Proof.
  apply (isBoardComplete_iff solvedGrid).
  split; [reflexivity|repeat constructor].
Defined.

(** X3: [isValidPartialBoard] is true exactly when no two different cells
    of the grid that share a row, a column or a 3x3 block hold the same
    nonzero value. *)
Theorem isValidPartialBoard_iff (b : Board) :
  isValidPartialBoard b = true
  <-> forall p q v, inGrid p -> inGrid q -> q <> p ->
        (row q = row p \/ col q = col p \/ sameBlock p q) ->
        v <> 0 -> cellAt b p = Some v -> cellAt b q <> Some v.
Proof.
  rewrite isValidPartialBoard_getConflicts, getConflicts_nil. split.
  - intros Hvalid p q v Hp Hq Hne Hrel. by apply Hvalid.
  - intros Hall p q v Hp (Hq & Hne & Hrel). by apply Hall.
Qed.

(** ** What the search does to its grid *)



(** X5: when [solveBacktrack] reports failure, every placement it made
    has been undone: the grid it leaves is the grid it was given. *)
Theorem solveBacktrack_failure_restores (b b' : Board) :
  solveBacktrack maxDepth b = Some (false, b') -> b' = b.
Proof.
  rewrite solveBacktrack_first by apply emptyCount_bound.
  destruct (solutions maxDepth b); cbn; congruence.
Qed.

Lemma solveBacktrack_failure_restores_witness :
  solveBacktrack maxDepth stuckBoard = Some (false, stuckBoard).
Proof.
  assert (exists b', solveBacktrack maxDepth stuckBoard = Some (false, b'))
    as [b' Hrun] by (eexists; vm_compute; reflexivity).
  rewrite Hrun.
  by rewrite (solveBacktrack_failure_restores stuckBoard b' Hrun).
Defined.

(** X6: when [countBacktrack], started at count 0, ends with a count below
    the limit, it has undone every placement: the grid it leaves is the
    grid it was given. *)
Theorem countBacktrack_below_limit_restores (b b' : Board) (limit n : Z) :
  countBacktrack maxDepth limit (b, 0) = Some (b', n) ->
  n < limit -> b' = b.
Proof.
  intros Hrun Hn.
  destruct (decide (0 < limit)) as [Hpos|Hneg].
  - destruct (countBacktrack_total maxDepth limit b 0)
      as (b1 & Hrun1 & Hb1); [apply emptyCount_bound|done|].
    remember (Z.of_nat (length (solutions maxDepth b))) as k eqn:Hk.
    clear Hk. rewrite Hrun1 in Hrun.
    assert (b1 = b' /\ Z.min (0 + k) limit = n) as [-> <-]
      by (split; congruence).
    apply Hb1. lia.
  - cbn [maxDepth countBacktrack] in Hrun.
    rewrite bool_decide_eq_true_2 in Hrun by lia. congruence.
Qed.

Lemma countBacktrack_below_limit_restores_witness :
  countBacktrack maxDepth 2 (PUZZLE, 0) = Some (PUZZLE, 1).
Proof.
  assert (exists b', countBacktrack maxDepth 2 (PUZZLE, 0) = Some (b', 1))
    as [b' Hrun] by (eexists; vm_compute; reflexivity).
  rewrite Hrun.
  by rewrite (countBacktrack_below_limit_restores PUZZLE b' 2 1 Hrun).
Defined.

(** ** Counting and uniqueness *)

(** X7: on a 9x9 board without conflicts, [hasUniqueSolution] is true
    exactly when the board has one and only one valid completion. *)
Theorem hasUniqueSolution_iff (b : Board) :
  Shape b -> getConflicts b = [] ->
  exists u, hasUniqueSolution b = Some u
    /\ (u = true
        <-> exists s, Completion b s
              /\ forall s', Completion b s' -> s' = s).
Proof.
  intros Hshape Hvalid%getConflicts_nil.
  destruct (solutions_spec maxDepth b (emptyCount_bound b) Hshape Hvalid)
    as [Hnodup Hsols].
  unfold hasUniqueSolution. rewrite countSolutions_length by lia.
  eexists. split; [done|]. rewrite bool_decide_eq_true.
  destruct (solutions maxDepth b) as [|s [|s' l]] eqn:E; cbn [length].
  - split; [lia|]. intros (s & Hs%Hsols & _). by apply elem_of_nil in Hs.
  - split; [|lia]. intros _. exists s.
    split; [apply Hsols, list_elem_of_singleton; done|].
    by intros s' Hs'%Hsols%list_elem_of_singleton.
  - split; [lia|]. intros (s0 & _ & Huniq).
    assert (s = s0) as -> by (apply Huniq, Hsols; by left).
    assert (s' = s0) as -> by (apply Huniq, Hsols; right; by left).
    apply NoDup_cons in Hnodup as [Hnotin _]. destruct Hnotin. by left.
Qed.

Lemma hasUniqueSolution_iff_witness :
  exists u, hasUniqueSolution PUZZLE = Some u
    /\ (u = true
        <-> exists s, Completion PUZZLE s
              /\ forall s', Completion PUZZLE s' -> s' = s).
Proof.
  apply (hasUniqueSolution_iff PUZZLE);
    [split; [reflexivity|repeat constructor]|vm_compute; reflexivity].
Defined.



(** ** The shuffle *)

Lemma shuffleFrom_used {A : Type} (i : nat) (arr : list A) (g : Rng) :
  used (shuffleFrom i arr g).2 = (used g + i)%nat
  /\ draws (shuffleFrom i arr g).2 = draws g.
Proof.
  revert arr g. induction i as [|i IH]; intros arr g; [cbn; by rewrite Nat.add_0_r|].
  cbn [shuffleFrom]. unfold randomBelow.
  destruct (IH (swap arr (S i) (draws g (used g) `mod` (S i + 1))%nat)
               (mkRng (draws g) (S (used g)))) as [Hused Hdraws].
  rewrite Hused, Hdraws. cbn. split; [lia|done].
Qed.

(** X9: for every array and every random source, [shuffle] leaves a
    permutation of the array, makes one draw per element but the first,
    and leaves an array of at most one element as it is. *)
Theorem shuffle_spec {A : Type} (arr : list A) (g : Rng) :
  (shuffle arr g).1 ≡ₚ arr
  /\ used (shuffle arr g).2 = (used g + (length arr - 1))%nat
  /\ ((length arr <= 1)%nat -> (shuffle arr g).1 = arr).
Proof.
  split; [apply shuffle_Permutation|]. split.
  - apply shuffleFrom_used.
  - intros Hlen. unfold shuffle.
    by replace (length arr - 1)%nat with 0%nat by lia.
Qed.

Lemma shuffle_spec_witness :
  (shuffle [7] (mkRng (fun n => n) 0)).1 = [7].
Proof.
  apply (shuffle_spec [7] (mkRng (fun n => n) 0)). cbn. lia.
Defined.

(** ** The fill on any valid grid *)

(** X10: on a 9x9 grid without conflicts and for every random source,
    [fillCompleteGrid] returns [true] and leaves a valid completion of the
    grid, or it returns [false], leaves the grid as it was, and the grid
    has no valid completion. *)
Theorem fillCompleteGrid_valid_board (b : Board) (g : Rng) :
  Shape b -> getConflicts b = [] ->
  exists ok s g', fillCompleteGrid maxDepth (b, g) = Some (ok, (s, g'))
    /\ if ok then Completion b s
       else s = b /\ forall s', ~ Completion b s'.
Proof.
  intros Hshape Hvalid%getConflicts_nil.
  destruct (solutions_spec maxDepth b (emptyCount_bound b) Hshape Hvalid)
    as [_ Hsols].
  destruct (fillCompleteGrid_total maxDepth b g (emptyCount_bound b))
    as [(s & g' & Hrun & Hs)|(g' & Hrun & Hnil)].
  - exists true, s, g'. split; [done|]. by apply Hsols.
  - exists false, b, g'. split; [done|]. split; [done|].
    intros s' Hs'%Hsols. rewrite Hnil in Hs'.
    destruct (proj1 (elem_of_nil _) Hs').
Qed.

Lemma fillCompleteGrid_valid_board_witness :
  exists ok s g',
    fillCompleteGrid maxDepth (stuckBoard, mkRng (fun n => n) 0)
    = Some (ok, (s, g'))
    /\ if ok then Completion stuckBoard s
       else s = stuckBoard /\ forall s', ~ Completion stuckBoard s'.
Proof.
  apply (fillCompleteGrid_valid_board stuckBoard);
    [split; [reflexivity|repeat constructor]|vm_compute; reflexivity].
Defined.

(** ** [cloneBoard] on the store is a deep copy *)

Lemma readBoard_same (h h' : list Heap.object) (board : nat) (grid : Board) :
  (forall l, is_Some (h !! l) -> h' !! l = h !! l) ->
  Heap.readBoard h board = Some grid ->
  Heap.readBoard h' board = Some grid.
Proof.
  intros Hsame. unfold Heap.readBoard.
  destruct (h !! board) as [[rows|]|] eqn:Hboard; [|done..].
  rewrite Hsame, Hboard by done. intros Hread%mapM_Some_1.
  apply mapM_Some_2. eapply Forall2_impl; [exact Hread|].
  intros l cells. unfold Heap.readRow.
  destruct (h !! l) eqn:Hl; [|done]. by rewrite Hsame, Hl.
Qed.

Lemma Rep_same (h h' : list Heap.object) (m : nat) (ls : list nat)
    (grid : Board) :
  h' !! m = h !! m -> (forall l, l ∈ ls -> h' !! l = h !! l) ->
  Heap.Rep h m ls grid -> Heap.Rep h' m ls grid.
Proof.
  intros Hm Hls (Hrows & Hnd & Hcells). split; [congruence|].
  split; [done|]. apply Forall2_same_length_lookup_2.
  { by eapply Forall2_length. }
  intros i l cells Hl Hc. rewrite Hls by by eapply list_elem_of_lookup_2.
  by eapply (Forall2_lookup_lr _ _ _ i) in Hcells.
Qed.

(** A write through a board reference touches at most one of its rows. *)
Lemma writeCell_other (h : list Heap.object) (m r c : nat) (v : CellValue)
    (rows : list nat) (l : nat) :
  h !! m = Some (Heap.Rows rows) -> l ∉ rows ->
  Heap.writeCell h m r c v !! l = h !! l.
Proof.
  intros Hm Hl. unfold Heap.writeCell. rewrite Hm.
  destruct (rows !! r) as [l'|] eqn:Hr; [|done].
  destruct (h !! l') as [[|cells]|]; [done| |done].
  apply list_lookup_insert_ne. intros ->. apply Hl.
  by eapply list_elem_of_lookup_2.
Qed.

(** X11: [cloneBoard] returns a fresh board that denotes the grid of the
    original and leaves every existing object as it was; afterwards a
    write through the copy changes the copy as [setCell] does and not the
    original, and a write through the original does not change the
    copy. *)
Theorem cloneBoard_deep_copy (h : list Heap.object) (board : nat)
    (grid : Board) :
  Heap.readBoard h board = Some grid ->
  exists m h1,
    Heap.cloneBoard h board = Some (m, h1)
    /\ (length h <= m)%nat
    /\ (forall l, (l < length h)%nat -> h1 !! l = h !! l)
    /\ Heap.readBoard h1 m = Some grid
    /\ Heap.readBoard h1 board = Some grid
    /\ forall r c v,
         Heap.readBoard (Heap.writeCell h1 m r c v) m
         = Some (setCell grid r c v)
         /\ Heap.readBoard (Heap.writeCell h1 m r c v) board = Some grid
         /\ Heap.readBoard (Heap.writeCell h1 board r c v) m = Some grid.
Proof.
  intros Hread.
  destruct (cloneBoard_Rep h board grid Hread)
    as (m & ls & h1 & Hclone & Hrep & Hold & Hfresh).
  assert (forall l, is_Some (h !! l) -> h1 !! l = h !! l) as Hold'.
  { intros l Hl%lookup_lt_is_Some. by apply Hold. }
  assert (Heap.readBoard h1 board = Some grid) as Hread1
    by by eapply readBoard_same.
  pose proof Hread as Hread0. unfold Heap.readBoard in Hread.
  destruct (h !! board) as [[rows|]|] eqn:Hboard; [|done..].
  apply mapM_Some_1 in Hread.
  assert (forall l, l ∈ rows -> (l < length h)%nat) as Hrows.
  { intros l [i Hi]%list_elem_of_lookup.
    destruct (Forall2_lookup_l _ _ _ _ _ Hread Hi) as (cells & _ & Hrow).
    unfold Heap.readRow in Hrow. apply lookup_lt_is_Some.
    by destruct (h !! l). }
  assert (length h <= m)%nat as Hm.
  { pose proof Hclone as Hc. unfold Heap.cloneBoard in Hc.
    rewrite Hboard, (copyRows_fresh rows grid h Hread) in Hc.
    unfold Heap.alloc in Hc. injection Hc as <- _.
    rewrite length_app. lia. }
  exists m, h1. split; [done|]. split; [done|]. split; [done|].
  split; [by eapply readBoard_Rep|]. split; [done|]. intros r c v.
  destruct (writeCell_Rep h1 m ls grid r c v Hrep) as [Hrep' [_ Hframe]].
  split; [by eapply readBoard_Rep|]. split.
  - eapply readBoard_same; [|exact Hread0]. intros l Hl%lookup_lt_is_Some.
    rewrite Hframe; [by apply Hold|]. intros Hin%Hfresh. lia.
  - assert (h1 !! board = Some (Heap.Rows rows)) as Hboard1
      by (rewrite Hold'; done).
    eapply readBoard_Rep, Rep_same; [| |exact Hrep].
    + eapply writeCell_other; [done|]. intros Hin%Hrows. lia.
    + intros l Hl%Hfresh. eapply writeCell_other; [done|].
      intros Hin%Hrows. lia.
Qed.

Lemma cloneBoard_deep_copy_witness :
  exists m h1,
    Heap.cloneBoard puzzleStore 9 = Some (m, h1)
    /\ (length puzzleStore <= m)%nat
    /\ (forall l, (l < length puzzleStore)%nat -> h1 !! l = puzzleStore !! l)
    /\ Heap.readBoard h1 m = Some PUZZLE
    /\ Heap.readBoard h1 9 = Some PUZZLE
    /\ forall r c v,
         Heap.readBoard (Heap.writeCell h1 m r c v) m
         = Some (setCell PUZZLE r c v)
         /\ Heap.readBoard (Heap.writeCell h1 m r c v) 9 = Some PUZZLE
         /\ Heap.readBoard (Heap.writeCell h1 9 r c v) m = Some PUZZLE.
Proof.
  apply (cloneBoard_deep_copy puzzleStore 9 PUZZLE). reflexivity.
Defined.

(** ** The structural gate on encoded boards *)

(** X12: every untyped value that decodes to 9 rows of 9 integers in
    [0,9] passes [isValidBoardShape]. *)
Theorem isValidBoardShape_accepts_boards (v : JSValue) :
  ShapeValid v -> isValidBoardShape v = true.
Proof. apply isValidBoardShape_complete. Qed.

Lemma ShapeValid_zeroBoardValue : ShapeValid zeroBoardValue.
Proof.
  exists createEmptyBoard. split; [|split].
  - eexists. split; [done|]. apply Forall2_replicate.
    eexists. split; [done|]. apply Forall2_replicate.
    eexists. split; [done|]. reflexivity.
  - apply Shape_createEmptyBoard.
  - apply Forall_replicate, Forall_replicate. lia.
Qed.

Lemma isValidBoardShape_accepts_boards_witness :
  isValidBoardShape zeroBoardValue = true.
Proof.
  apply (isValidBoardShape_accepts_boards zeroBoardValue).
  apply ShapeValid_zeroBoardValue.
Defined.

Lemma numRange_integer (q : QArith_base.Q) (z : Z) :
  QArith_base.Qeq q (QArith_base.inject_Z z) ->
  numLt (Finite q) 0 = false -> numGt (Finite q) 9 = false ->
  0 <= z <= 9.
Proof.
  unfold numLt, numGt, QArith_base.Qeq, QArith_base.Qle_bool.
  destruct q as [n d]. cbn.
  intros Hq H0%negb_false_iff%Z.leb_le H9%negb_false_iff%Z.leb_le. nia.
Qed.

(** X13: a value that passes [isValidBoardShape] and whose numeric cells
    are all finite integers decodes to 9 rows of 9 integers in [0,9]. *)
Theorem isValidBoardShape_integers (v : JSValue) :
  isValidBoardShape v = true -> IntegerCells v -> ShapeValid v.
Proof.
  intros (rows & -> & Hlen & Hrows)%isValidBoardShape_true Hint.
  assert (Forall (fun r => exists zs, rowDecodes r zs
            /\ length zs = GRID_SIZE
            /\ Forall (fun z => 0 <= z <= 9) zs) rows) as Hdec.
  { apply Forall_forall. intros r Hr.
    rewrite Forall_forall in Hrows.
    destruct (Hrows r Hr) as (cells & -> & Hlenc & Hcells).
    assert (Forall (fun c => exists z, cellDecodes c z /\ 0 <= z <= 9)
              cells) as Hz.
    { apply Forall_forall. intros c Hc.
      rewrite Forall_forall in Hcells.
      destruct (Hcells c Hc) as (n & -> & H0 & H9).
      destruct (Hint rows cells n eq_refl Hr Hc) as (z & q & Heq & Hq).
      exists z. split; [by exists q|]. injection Heq as ->.
      by eapply numRange_integer. }
    apply Forall_exists_Forall2_l in Hz as [zs Hzs].
    exists zs. split; [|split].
    - exists cells. split; [done|].
      eapply Forall2_impl; [exact Hzs|]. by intros c z [? _].
    - by rewrite <- (Forall2_length _ _ _ Hzs).
    - eapply Forall2_Forall_r; [exact Hzs|].
      apply Forall_forall. by intros c _ z [_ ?]. }
  apply Forall_exists_Forall2_l in Hdec as [b Hb].
  exists b. split; [|split; [split|]].
  - exists rows. split; [done|].
    eapply Forall2_impl; [exact Hb|]. by intros r zs (? & _).
  - by rewrite <- (Forall2_length _ _ _ Hb).
  - eapply Forall2_Forall_r; [exact Hb|].
    apply Forall_forall. by intros r _ zs (_ & ? & _).
  - eapply Forall2_Forall_r; [exact Hb|].
    apply Forall_forall. by intros r _ zs (_ & _ & ?).
Qed.

Lemma isValidBoardShape_integers_witness : ShapeValid zeroBoardValue.
Proof.
  apply (isValidBoardShape_integers zeroBoardValue); [reflexivity|].
  intros rows cells n Heq Hcells Hn.
  assert (rows = replicate 9 (JSArray
            (replicate 9 (JSNum (Finite (QArith_base.inject_Z 0))))))
    as -> by (unfold zeroBoardValue in Heq; congruence).
  apply elem_of_replicate in Hcells as [Hcells _].
  assert (cells = replicate 9 (JSNum (Finite (QArith_base.inject_Z 0))))
    as -> by congruence.
  apply elem_of_replicate in Hn as [Hn _].
  assert (n = Finite (QArith_base.inject_Z 0)) as -> by congruence.
  exists 0, (QArith_base.inject_Z 0). split; reflexivity.
Defined.

(** ** How many givens the generator leaves *)

Lemma filter_length_flip {A : Type} (f g : A -> bool) (l : list A) (x : A) :
  List.NoDup l -> In x l -> f x = true -> g x = false ->
  (forall y, y <> x -> g y = f y) ->
  length (List.filter f l) = S (length (List.filter g l)).
Proof.
  intros Hnd Hin Hf Hg Hsame. induction Hnd as [|a l Ha Hnd IH]; [done|].
  cbn [List.filter]. destruct Hin as [->|Hin].
  - rewrite Hf, Hg. cbn [length]. f_equal.
    f_equal. apply List.filter_ext_in. intros y Hy. symmetry.
    apply Hsame. intros ->. done.
  - rewrite (Hsame a) by (intros ->; done).
    destruct (f a); cbn [length]; rewrite (IH Hin); done.
Qed.

Lemma givenCount_clear (b : Board) (p : Position) (v : CellValue) :
  inGrid p -> cellAt b p = Some v -> v <> 0 ->
  givenCount b = S (givenCount (setCell b (row p) (col p) 0)).
Proof.
  intros Hp Hcell Hv. unfold givenCount.
  apply (filter_length_flip _ _ _ p).
  - apply NoDup_allPositions.
  - by apply elem_allPositions.
  - apply negb_true_iff, not_true_iff_false. rewrite cellIs_true.
    unfold cellAt in Hcell. congruence.
  - apply negb_false_iff, cellIs_true.
    fold (cellAt (setCell b (row p) (col p) 0) p).
    by rewrite cellAt_setCell, decide_True by (done || by rewrite Hcell).
  - intros q Hq. f_equal. unfold cellIs.
    fold (cellAt (setCell b (row p) (col p) 0) q). fold (cellAt b q).
    by rewrite cellAt_setCell, decide_False by (done || by rewrite Hcell).
Qed.

Lemma givenCount_Full (b : Board) :
  Full b -> givenCount b = (GRID_SIZE * GRID_SIZE)%nat.
Proof.
  intros Hfull. unfold givenCount.
  rewrite List.forallb_filter_id; [done|].
  apply forallb_forall. intros p Hp%elem_allPositions.
  destruct (Hfull p Hp) as (v & Hv & Hne).
  apply negb_true_iff, not_true_iff_false. rewrite cellIs_true.
  unfold cellAt in Hv. congruence.
Qed.

Lemma NoDup_two_length {A : Type} (l : list A) (x y : A) :
  NoDup l -> x ∈ l -> y ∈ l -> x <> y -> (2 <= length l)%nat.
Proof.
  intros Hnd Hx Hy Hne. destruct l as [|a [|a' l]]; cbn; [|exfalso|lia].
  - by apply elem_of_nil in Hx.
  - apply list_elem_of_singleton in Hx, Hy. congruence.
Qed.

Section Carving.
Variable sol : Board.
Hypothesis Hsol : Completion createEmptyBoard sol.

Lemma Carved_hasUniqueSolution (b : Board) :
  Carved sol b ->
  exists n, countSolutions b 2 = Some n /\ 1 <= n <= 2.
Proof.
  intros Hcarved.
  destruct (Carved_Completion sol b Hsol Hcarved) as [Hvalid Hcompl].
  destruct (solutions_spec maxDepth b (emptyCount_bound b)
              (proj1 Hcarved) Hvalid) as [_ Hsols].
  rewrite countSolutions_length by lia. eexists. split; [done|].
  apply Hsols in Hcompl.
  destruct (solutions maxDepth b); [by apply elem_of_nil in Hcompl|].
  cbn [length]. lia.
Qed.

(** Clearing more cells cannot make an ambiguous board unique. *)
Lemma Carved_ambiguous_below (x y : Board) :
  Carved sol x -> Carved sol y ->
  (forall p, inGrid p -> cellAt x p = Some 0 \/ cellAt x p = cellAt y p) ->
  hasUniqueSolution y = Some false -> hasUniqueSolution x = Some false.
Proof.
  intros Hx Hy Hbelow. unfold hasUniqueSolution.
  destruct (Carved_Completion sol x Hsol Hx) as [Hvx _].
  destruct (Carved_Completion sol y Hsol Hy) as [Hvy _].
  destruct (solutions_spec maxDepth x (emptyCount_bound x) (proj1 Hx) Hvx)
    as [Hndx Hsx].
  destruct (solutions_spec maxDepth y (emptyCount_bound y) (proj1 Hy) Hvy)
    as [Hndy Hsy].
  destruct (Carved_hasUniqueSolution y Hy) as (n & Hn & Hrange).
  rewrite Hn. rewrite countSolutions_length in Hn |- * by lia.
  intros [= Hfalse%bool_decide_eq_false]. f_equal.
  apply bool_decide_eq_false.
  assert (forall s, Completion y s -> Completion x s) as Hmono.
  { intros s (Hsolved & Hext & Hdig). split; [done|]. split.
    - intros p v Hp Hcp Hv. apply Hext; [done| |done].
      destruct (Hbelow p Hp); congruence.
    - intros p Hp Hcp.
      destruct (Shape_cellAt y p (proj1 Hy) Hp) as [w Hw].
      destruct (decide (w = 0)) as [->|Hne]; [by apply Hdig|].
      exists w. split; [by apply Hext|].
      destruct (proj2 Hy p Hp) as [?|Heq]; [congruence|].
      apply Completion_createEmptyBoard in Hsol as [_ Hsoldig].
      destruct (Hsoldig p Hp) as (w' & Hw' & ?). congruence. }
  destruct (solutions maxDepth y) as [|s1 [|s2 l]] eqn:Ey;
    cbn [length] in Hn; [injection Hn as <-; lia|injection Hn as <-; lia|].
  assert (2 <= length (solutions maxDepth x))%nat.
  { apply (NoDup_two_length _ s1 s2); [done|..].
    - apply Hsx, Hmono, Hsy. by left.
    - apply Hsx, Hmono, Hsy. right; by left.
    - apply NoDup_cons in Hndy as [Hnotin _]. intros ->.
      apply Hnotin. by left. }
  lia.
Qed.

Variable targetGivens : Z.

Lemma removeLoop_givens (ps : list Position) :
  forall (visited : list Position) (b : Board) (n : Z),
    NoDup ps -> (forall p, p ∈ ps -> inGrid p) ->
    (forall q, q ∈ visited -> inGrid q) ->
    Carved sol b ->
    (forall p, p ∈ ps -> cellAt b p = cellAt sol p) ->
    n = Z.of_nat (givenCount b) ->
    (forall q, q ∈ visited -> cellAt b q <> Some 0 ->
       hasUniqueSolution (setCell b (row q) (col q) 0) = Some false) ->
    targetGivens <= n ->
    exists b',
      removeLoop targetGivens ps b n = Some b'
      /\ Carved sol b'
      /\ targetGivens <= Z.of_nat (givenCount b')
      /\ (targetGivens < Z.of_nat (givenCount b') ->
          forall q, q ∈ visited ++ ps -> cellAt b' q <> Some 0 ->
            hasUniqueSolution (setCell b' (row q) (col q) 0) = Some false).
Proof.
  induction ps as [|p ps IH];
    intros visited b n Hnd Hgrid Hvgrid Hcarved Hrest Hn Hvis Htarget.
  { exists b. split; [done|]. split; [done|]. split; [lia|].
    intros _ q. rewrite app_nil_r. apply Hvis. }
  apply NoDup_cons in Hnd as [Hp Hnd].
  assert (inGrid p) as Hpg by (apply Hgrid; by left).
  cbn [removeLoop]. case_bool_decide as Hstop.
  { exists b. split; [done|]. split; [done|]. split; lia. }
  destruct (Shape_cellAt b p (proj1 Hcarved) Hpg) as [value Hvalue].
  unfold cellAt in Hvalue. rewrite Hvalue.
  assert (value <> 0) as Hnz.
  { apply Completion_createEmptyBoard in Hsol as [_ Hdig].
    destruct (Hdig p Hpg) as (w & Hw & ?).
    rewrite <- (Hrest p) in Hw by by left. unfold cellAt in Hw.
    assert (value = w) by congruence. lia. }
  set (b1 := setCell b (row p) (col p) 0).
  assert (Carved sol b1) as Hcarved1 by apply Carved_clear, Hcarved.
  destruct (Carved_hasUniqueSolution b1 Hcarved1) as (k & Hk & Hrange).
  rewrite Hk.
  assert (forall q, cellAt b1 q = if decide (q = p) then Some 0
                                  else cellAt b q) as Hb1.
  { intros q. apply cellAt_setCell. unfold cellAt. by rewrite Hvalue. }
  case_bool_decide as Hone.
  - destruct (IH (p :: visited) b1 (n - 1)) as (b' & Hrun & Hc' & Hge & Hirr).
    + done.
    + intros q Hq. apply Hgrid. by right.
    + intros q [->|Hq]%elem_of_cons; [done|by apply Hvgrid].
    + done.
    + intros q Hq. rewrite Hb1.
      rewrite decide_False by (intros ->; done). apply Hrest. by right.
    + rewrite (givenCount_clear b p value) in Hn by done.
      fold b1 in Hn. lia.
    + intros q [->|Hq]%elem_of_cons Hcq.
      { rewrite Hb1, decide_True in Hcq by done. done. }
      rewrite Hb1 in Hcq. destruct (decide (q = p)) as [->|Hqp]; [done|].
      apply (Carved_ambiguous_below _ (setCell b (row q) (col q) 0)).
      * by apply Carved_clear.
      * by apply Carved_clear.
      * intros r Hr.
        rewrite !cellAt_setCell
          by (apply Shape_cellAt; [apply Hcarved1 || apply Hcarved
                                  |by apply Hvgrid]).
        destruct (decide (r = q)); [by left|]. rewrite Hb1.
        destruct (decide (r = p)); [by left|by right].
      * by apply Hvis.
    + lia.
    + exists b'. split; [done|]. split; [done|]. split; [done|].
      intros Hlt q Hq. apply Hirr; [done|].
      rewrite elem_of_app, elem_of_cons. rewrite elem_of_app in Hq.
      rewrite elem_of_cons in Hq. tauto.
  - unfold b1. rewrite setCell_restore by done.
    destruct (IH (p :: visited) b n) as (b' & Hrun & Hc' & Hge & Hirr).
    + done.
    + intros q Hq. apply Hgrid. by right.
    + intros q [->|Hq]%elem_of_cons; [done|by apply Hvgrid].
    + done.
    + intros q Hq. apply Hrest. by right.
    + done.
    + intros q [->|Hq]%elem_of_cons Hcq; [|by apply Hvis].
      unfold hasUniqueSolution. fold b1. rewrite Hk.
      by rewrite bool_decide_eq_false_2.
    + done.
    + exists b'. split; [done|]. split; [done|]. split; [done|].
      intros Hlt q Hq. apply Hirr; [done|].
      rewrite elem_of_app, elem_of_cons. rewrite elem_of_app in Hq.
      rewrite elem_of_cons in Hq. tauto.
Qed.
End Carving.

Lemma generatePuzzle_carving (d : Difficulty) (g : Rng) :
  exists puz sol g',
    generatePuzzle d g = Some (mkGeneratedPuzzle puz sol, g')
    /\ Carved sol puz
    /\ GIVENS_BY_DIFFICULTY d <= Z.of_nat (givenCount puz)
    /\ (GIVENS_BY_DIFFICULTY d < Z.of_nat (givenCount puz) ->
        forall q, inGrid q -> cellAt puz q <> Some 0 ->
          hasUniqueSolution (setCell puz (row q) (col q) 0) = Some false).
Proof.
  destruct (generateFullGrid_total g) as (sol & g1 & _ & Hgen & Hsol).
  unfold generatePuzzle. rewrite Hgen.
  unfold removeCellsKeepingUniqueSolution.
  pose proof (shuffle_Permutation allPositions g1) as Hperm.
  destruct (shuffle allPositions g1) as [positions g2]. cbn [fst] in Hperm.
  rewrite cloneBoard_id.
  assert (forall p, p ∈ positions <-> inGrid p) as Hpos.
  { intros p. by rewrite Hperm, list_elem_of_In, elem_allPositions. }
  pose proof Hsol as ((Hshape & Hfull & _) & _).
  destruct (removeLoop_givens sol Hsol (GIVENS_BY_DIFFICULTY d) positions []
              sol (Z.of_nat (GRID_SIZE * GRID_SIZE)))
    as (puz & -> & Hcarved & Hge & Hirr).
  - rewrite Hperm. apply NoDup_ListNoDup, NoDup_allPositions.
  - intros p. apply Hpos.
  - by intros q ?%elem_of_nil.
  - by apply Carved_refl.
  - done.
  - by rewrite givenCount_Full.
  - by intros q ?%elem_of_nil.
  - by destruct d.
  - exists puz, sol, g2. rewrite !freezeBoard_id. split; [done|].
    split; [done|]. split; [done|]. intros Hlt q Hq. apply Hirr; [done|].
    cbn [app]. by apply Hpos.
Qed.

(** X14: for every difficulty and every random source, the puzzle of
    [generatePuzzle] is the solution with cells cleared (each cell is 0 or
    the solution's cell), and it keeps at least the target number of
    givens of the difficulty: 42, 34 or 26. *)
Theorem generatePuzzle_givens (d : Difficulty) (g : Rng) :
  exists gp g',
    generatePuzzle d g = Some (gp, g')
    /\ Shape (puzzle gp)
    /\ (forall p, inGrid p ->
          cellAt (puzzle gp) p = Some 0
          \/ cellAt (puzzle gp) p = cellAt (solution gp) p)
    /\ GIVENS_BY_DIFFICULTY d <= Z.of_nat (givenCount (puzzle gp)) <= 81.
Proof.
  destruct (generatePuzzle_carving d g)
    as (puz & sol & g' & Hgen & [Hshape Hcells] & Hge & _).
  exists (mkGeneratedPuzzle puz sol), g'. cbn [puzzle solution].
  split; [done|]. split; [done|]. split; [done|]. split; [done|].
  unfold givenCount.
  pose proof (List.filter_length_le
    (fun p => negb (cellIs puz (row p) (col p) 0)) allPositions) as Hle.
  change (length allPositions) with 81%nat in Hle. lia.
Qed.

(** X15: when the generator stops above the target number of givens, the
    puzzle is irreducible: clearing any one of its givens yields a board
    that [hasUniqueSolution] rejects. *)
Theorem generatePuzzle_shortfall_irreducible (d : Difficulty) (g : Rng) :
  exists gp g',
    generatePuzzle d g = Some (gp, g')
    /\ (GIVENS_BY_DIFFICULTY d < Z.of_nat (givenCount (puzzle gp)) ->
        forall q, inGrid q -> cellAt (puzzle gp) q <> Some 0 ->
          hasUniqueSolution (setCell (puzzle gp) (row q) (col q) 0)
          = Some false).
Proof.
  destruct (generatePuzzle_carving d g)
    as (puz & sol & g' & Hgen & _ & _ & Hirr).
  by exists (mkGeneratedPuzzle puz sol), g'.
Qed.

(** * Properties of the page *)

(** ** Blocks and mistakes in the grid component *)

(** X16: [sameBlock] holds exactly for the cells that the block scan of
    [isValidPlacement] visits, and, for columns of the grid, exactly when
    [blockIndex] agrees; [blockIndex] of a grid cell is below 9. *)
Theorem sameBlock_blockIndex (r1 c1 r2 c2 : nat) :
  (SudokuGrid.sameBlock r1 c1 r2 c2 = true
   <-> (r1 / 3 * 3 <= r2 < r1 / 3 * 3 + 3
        /\ c1 / 3 * 3 <= c2 < c1 / 3 * 3 + 3)%nat)
  /\ ((c1 < 9)%nat -> (c2 < 9)%nat ->
      (SudokuGrid.sameBlock r1 c1 r2 c2 = true
       <-> SudokuGrid.blockIndex r1 c1 = SudokuGrid.blockIndex r2 c2))
  /\ ((r1 < 9)%nat -> (c1 < 9)%nat ->
      (SudokuGrid.blockIndex r1 c1 < 9)%nat).
Proof.
  unfold SudokuGrid.sameBlock, SudokuGrid.blockIndex, BLOCK_SIZE.
  rewrite andb_true_iff, !bool_decide_eq_true.
  split; [|split].
  - rewrite !block_range. split; intros [? ?]; split; congruence.
  - intros H1 H2. div3 r1. div3 r2. div3 c1. div3 c2. lia.
  - intros H1 H2. div3 r1. div3 c1. lia.
Qed.

Lemma sameBlock_blockIndex_witness :
  SudokuGrid.sameBlock 4 5 3 3 = true
  <-> SudokuGrid.blockIndex 4 5 = SudokuGrid.blockIndex 3 3.
Proof.
  apply (sameBlock_blockIndex 4 5 3 3); lia.
Defined.

Lemma grid_forallb (f : nat -> nat -> bool) :
  forallb (fun p => f (row p) (col p)) allPositions = true ->
  forall r c, (r < 9)%nat -> (c < 9)%nat -> f r c = true.
Proof.
  rewrite forallb_forall. intros Hall r c Hr Hc.
  apply (Hall (mkPosition r c)). apply elem_allPositions. by split.
Qed.

(** X17: a 9x9 board on which no cell is a mistake against a finished
    solution has no conflicts; once it has no empty cell it passes
    [isBoardComplete] and, the solution being 9x9, it is the solution. *)
Theorem no_mistake_no_conflict (b sol : Board) :
  Shape b -> isBoardComplete sol = true ->
  (forall r c, (r < 9)%nat -> (c < 9)%nat ->
     SudokuGrid.isMistake b (Some sol) r c = false) ->
  getConflicts b = []
  /\ (findEmptyCell b = None ->
      isBoardComplete b = true /\ (Shape sol -> b = sol)).
Proof.
  intros Hshape [Hfull Hvalid]%isBoardComplete_true Hok.
  assert (Extends b sol) as Hext.
  { intros p v [Hr Hc] Hcell Hv. specialize (Hok (row p) (col p) Hr Hc).
    unfold SudokuGrid.isMistake in Hok. unfold cellAt in *.
    rewrite Hcell in Hok. apply andb_false_iff in Hok as [Hok|Hok].
    - apply negb_false_iff, bool_decide_eq_true in Hok. congruence.
    - by apply negb_false_iff, bool_decide_eq_true in Hok. }
  assert (Valid b) as Hvb by by apply (Valid_below b sol).
  split; [by apply getConflicts_nil|]. intros Hnone.
  assert (Full b) as Hfb by by apply Full_iff_findEmptyCell.
  split; [by apply isBoardComplete_true|]. intros Hss.
  apply Shape_ext; [done..|]. intros p Hp.
  destruct (Hfb p Hp) as (v & Hv & Hne). rewrite Hv. symmetry.
  by apply Hext.
Qed.

Lemma no_mistake_no_conflict_witness :
  getConflicts PUZZLE = []
  /\ (findEmptyCell PUZZLE = None ->
      isBoardComplete PUZZLE = true /\ (Shape solvedGrid -> PUZZLE = solvedGrid)).
Proof.
  apply (no_mistake_no_conflict PUZZLE solvedGrid).
  - split; [reflexivity|repeat constructor].
  - vm_compute. reflexivity.
  - intros r c Hr Hc. apply negb_true_iff.
    apply (grid_forallb
             (fun r c => negb (SudokuGrid.isMistake PUZZLE (Some solvedGrid)
                                                    r c))); [|done..].
    vm_compute. reflexivity.
Defined.

(** ** The Tab key: the next empty cell *)

Lemma below_81 (P : nat -> bool) :
  forallb P (seq 0 81) = true -> forall k, (k < 81)%nat -> P k = true.
Proof.
  rewrite forallb_forall. intros Hall k Hk. apply Hall, in_seq. lia.
Qed.

Lemma advance_loopAt (k : nat) :
  (k < 81)%nat -> Page.advance (loopAt k) = loopAt ((k + 1) mod 81).
Proof.
  intros Hk.
  assert (forallb (fun k => bool_decide
            (Page.advance (loopAt k) = loopAt ((k + 1) mod 81)))
            (seq 0 81) = true) as Hall by (vm_compute; reflexivity).
  pose proof (below_81 _ Hall k Hk) as H.
  by apply bool_decide_eq_true in H.
Qed.

Lemma allPositions_numbered (k : nat) :
  (k < 81)%nat -> allPositions !! k = Some (cellNumbered k).
Proof.
  intros Hk.
  assert (forallb (fun k => bool_decide
            (allPositions !! k = Some (cellNumbered k)))
            (seq 0 81) = true) as Hall by (vm_compute; reflexivity).
  pose proof (below_81 _ Hall k Hk) as H.
  by apply bool_decide_eq_true in H.
Qed.

Lemma cellIsAt_loopAt (b : Board) (k : nat) :
  Page.cellIsAt b (loopAt k).1 (loopAt k).2 0
  = cellIs b (row (cellNumbered k)) (col (cellNumbered k)) 0.
Proof.
  unfold Page.cellIsAt, loopAt, cellNumbered. cbn [fst snd row col].
  rewrite !bool_decide_eq_true_2 by lia. by rewrite !Nat2Z.id.
Qed.

Lemma scanCells_cyclic (b : Board) (i : nat) :
  forall k, (k < 81)%nat ->
  match Page.scanCells b i (loopAt k) with
  | Some p =>
      exists j, (j < i)%nat /\ p = cellNumbered ((k + j) mod 81)
        /\ cellAt b p = Some 0
        /\ forall j', (j' < j)%nat ->
             cellAt b (cellNumbered ((k + j') mod 81)) <> Some 0
  | None =>
      forall j, (j < i)%nat ->
        cellAt b (cellNumbered ((k + j) mod 81)) <> Some 0
  end.
Proof.
  induction i as [|i IH]; intros k Hk; [cbn; lia|].
  cbn [Page.scanCells]. rewrite cellIsAt_loopAt.
  destruct (cellIs b _ _ 0) eqn:Hcell.
  - assert (mkPosition (Z.to_nat (loopAt k).1) (Z.to_nat (loopAt k).2)
            = cellNumbered k) as ->.
    { unfold loopAt, cellNumbered. cbn [fst snd]. by rewrite !Nat2Z.id. }
    exists 0%nat. rewrite Nat.add_0_r, Nat.mod_small by done.
    split; [lia|]. split; [done|].
    split; [unfold cellAt; by apply cellIs_true|lia].
  - assert (cellAt b (cellNumbered k) <> Some 0) as Hk0.
    { unfold cellAt. intros H%cellIs_true. congruence. }
    rewrite advance_loopAt by done.
    assert (forall j, ((k + 1) mod 81 + j) mod 81 = (k + S j) mod 81)%nat
      as Hidx.
    { intros j. rewrite Nat.Div0.add_mod_idemp_l. f_equal. lia. }
    specialize (IH ((k + 1) mod 81)%nat
                  (Nat.mod_upper_bound _ 81 ltac:(lia))).
    destruct (Page.scanCells b i _) as [p|].
    + destruct IH as (j & Hj & -> & Hp & Hbefore). exists (S j).
      rewrite Hidx in *. split; [lia|]. split; [done|]. split; [done|].
      intros [|j'] Hj'.
      * by rewrite Nat.add_0_r, Nat.mod_small.
      * rewrite <- Hidx. apply Hbefore. lia.
    + intros [|j] Hj.
      * by rewrite Nat.add_0_r, Nat.mod_small.
      * rewrite <- Hidx. apply IH. lia.
Qed.

Lemma findNextEmptyCell_start (b : Board) (fromRow fromCol : Z) :
  0 <= fromRow <= 8 -> -1 <= fromCol <= 8 ->
  Page.findNextEmptyCell b fromRow fromCol
  = Page.scanCells b 81
      (loopAt (Z.to_nat (9 * fromRow + fromCol + 1) mod 81)).
Proof.
  intros Hr Hc. unfold Page.findNextEmptyCell. cbv zeta.
  assert (forallb (fun r => forallb (fun c => bool_decide
            ((let fromRow := Z.of_nat r in
              let fromCol := Z.of_nat c - 1 in
              let r := fromRow in
              let c := fromCol + 1 in
              let '(r, c) :=
                if bool_decide (c > 8) then (r + 1, 0) else (r, c) in
              let r := if bool_decide (r > 8) then 0 else r in
              (r, c))
             = loopAt (Z.to_nat (9 * Z.of_nat r + (Z.of_nat c - 1) + 1)
                       mod 81)))
            (seq 0 10)) (seq 0 9) = true) as Hall
    by (vm_compute; reflexivity).
  rewrite forallb_forall in Hall.
  specialize (Hall (Z.to_nat fromRow) ltac:(apply in_seq; lia)).
  rewrite forallb_forall in Hall.
  specialize (Hall (Z.to_nat (fromCol + 1)) ltac:(apply in_seq; lia)).
  apply bool_decide_eq_true in Hall. cbv zeta in Hall.
  rewrite !Z2Nat.id in Hall by lia.
  replace (fromCol + 1 - 1) with fromCol in Hall by lia.
  rewrite <- Hall. by destruct (bool_decide (fromCol + 1 > 8)).
Qed.

Lemma cellNumbered_index (q : Position) :
  inGrid q -> cellNumbered (9 * row q + col q) = q.
Proof.
  intros Hq%elem_allPositions.
  assert (forallb (fun p => bool_decide
            (cellNumbered (9 * row p + col p) = p)) allPositions = true)
    as Hall by (vm_compute; reflexivity).
  rewrite forallb_forall in Hall. specialize (Hall q Hq).
  by apply bool_decide_eq_true in Hall.
Qed.

(** X18: for a start cell of the grid (or column -1 before a row),
    [findNextEmptyCell] returns the first empty cell in row-major order
    taken cyclically from the cell after the start, the start cell itself
    coming last; it returns [null] exactly when the grid has no empty
    cell. *)
Theorem findNextEmptyCell_cyclic (b : Board) (fromRow fromCol : Z) :
  0 <= fromRow <= 8 -> -1 <= fromCol <= 8 ->
  let k0 := Z.to_nat (9 * fromRow + fromCol + 1) in
  match Page.findNextEmptyCell b fromRow fromCol with
  | Some p =>
      exists j, (j < 81)%nat /\ p = cellNumbered ((k0 + j) mod 81)
        /\ cellAt b p = Some 0
        /\ forall j', (j' < j)%nat ->
             cellAt b (cellNumbered ((k0 + j') mod 81)) <> Some 0
  | None => forall q, inGrid q -> cellAt b q <> Some 0
  end.
Proof.
  intros Hr Hc k0. rewrite findNextEmptyCell_start by done. fold k0.
  pose proof (scanCells_cyclic b 81 (k0 mod 81)
                (Nat.mod_upper_bound _ 81 ltac:(lia))) as Hscan.
  assert (forall j, (k0 mod 81 + j) mod 81 = (k0 + j) mod 81)%nat as Hidx
    by (intros j; apply Nat.Div0.add_mod_idemp_l).
  destruct (Page.scanCells b 81 _) as [p|].
  - destruct Hscan as (j & Hj & -> & Hp & Hbefore). exists j.
    rewrite Hidx in *. split; [done|]. split; [done|]. split; [done|].
    intros j' Hj'. rewrite <- Hidx. by apply Hbefore.
  - intros q Hq. pose proof (cellNumbered_index q Hq) as Hnum.
    pose proof (Nat.mod_upper_bound k0 81 ltac:(lia)) as Hk.
    destruct Hq as [Hqr Hqc]. unfold GRID_SIZE in *.
    set (idx := (9 * row q + col q)%nat) in *.
    set (kk := (k0 mod 81)%nat) in *.
    destruct (decide (kk <= idx)%nat) as [Hle|Hgt].
    + specialize (Hscan (idx - kk)%nat ltac:(lia)).
      replace (kk + (idx - kk))%nat with idx in Hscan by lia.
      rewrite Nat.mod_small, Hnum in Hscan by lia. done.
    + specialize (Hscan (idx + 81 - kk)%nat ltac:(lia)).
      replace (kk + (idx + 81 - kk))%nat with (idx + 1 * 81)%nat in Hscan
        by lia.
      rewrite Nat.Div0.mod_add, Nat.mod_small, Hnum in Hscan by lia. done.
Qed.

Lemma findNextEmptyCell_cyclic_witness :
  match Page.findNextEmptyCell PUZZLE 0 2 with
  | Some p =>
      exists j, (j < 81)%nat /\ p = cellNumbered ((3 + j) mod 81)
        /\ cellAt PUZZLE p = Some 0
        /\ forall j', (j' < j)%nat ->
             cellAt PUZZLE (cellNumbered ((3 + j') mod 81)) <> Some 0
  | None => forall q, inGrid q -> cellAt PUZZLE q <> Some 0
  end.
Proof.
  apply (findNextEmptyCell_cyclic PUZZLE 0 2); lia.
Defined.

Lemma scanCells_find (b : Board) (i : nat) :
  forall k, (k + i <= 81)%nat ->
    Page.scanCells b i (loopAt k)
    = List.find (fun p => cellIs b (row p) (col p) 0)
                (take i (drop k allPositions)).
Proof.
  induction i as [|i IH]; intros k Hk; [done|].
  cbn [Page.scanCells]. rewrite cellIsAt_loopAt.
  rewrite (drop_S allPositions (cellNumbered k) k)
    by (apply allPositions_numbered; lia).
  cbn [take List.find].
  destruct (cellIs b _ _ 0).
  - unfold loopAt, cellNumbered. cbn [fst snd]. by rewrite !Nat2Z.id.
  - rewrite advance_loopAt by lia. destruct i as [|i]; [done|].
    rewrite Nat.mod_small by lia.
    rewrite IH by lia. by rewrite Nat.add_1_r.
Qed.

(** X19: [findFirstEmptyCell] of the page finds the cell that
    [findEmptyCell] of the solver finds. *)
Theorem findFirstEmptyCell_findEmptyCell (b : Board) :
  Page.findFirstEmptyCell b = findEmptyCell b.
Proof.
  unfold Page.findFirstEmptyCell.
  rewrite findNextEmptyCell_start by lia.
  change (Z.to_nat (9 * 0 + -1 + 1) mod 81)%nat with 0%nat.
  rewrite scanCells_find by lia. by rewrite drop_0, take_ge.
Qed.

(** ** Undo and redo *)

Ltac fields :=
  cbn [Page.solution Page.givenMask Page.board Page.selectedCell
       Page.undoStack Page.redoStack Page.mistakes Page.hintsLeft].

Lemma copyBoard_id (b : Board) : Page.copyBoard b = b.
Proof. apply map_id. Qed.

Lemma dropLast_snoc {A : Type} (l : list A) (x : A) :
  Page.dropLast (l ++ [x]) = l.
Proof.
  unfold Page.dropLast. rewrite length_app. cbn [length].
  replace (length l + 1 - 1)%nat with (length l) by lia.
  by rewrite take_app_length.
Qed.

Lemma lastOf_snoc {A : Type} (l : list A) (x : A) :
  Page.lastOf (l ++ [x]) = Some x.
Proof. apply last_snoc. Qed.

Lemma lastOf_Some {A : Type} (l : list A) (x : A) :
  Page.lastOf l = Some x -> l = Page.dropLast l ++ [x].
Proof.
  intros [l' ->]%last_Some. by rewrite dropLast_snoc.
Qed.

Lemma lastOf_nonempty {A : Type} (l : list A) :
  l <> [] -> exists x, Page.lastOf l = Some x.
Proof.
  intros Hl. destruct (Page.lastOf l) as [x|] eqn:E; [by exists x|].
  by apply last_None in E.
Qed.

(** X20: redo undoes an undo and undo undoes a redo: with a nonempty undo
    stack [handleRedo] after [handleUndo] gives back the whole state, and
    with a nonempty redo stack so does [handleUndo] after [handleRedo]. *)
Theorem undo_redo_inverse (st : Page.State) :
  (Page.undoStack st <> [] -> Page.handleRedo (Page.handleUndo st) = st)
  /\ (Page.redoStack st <> [] -> Page.handleUndo (Page.handleRedo st) = st).
Proof.
  destruct st as [sol mask b sel undo redo m h]. split.
  - fields. intros [prev Hlast]%lastOf_nonempty.
    unfold Page.handleUndo. fields. rewrite Hlast.
    unfold Page.handleRedo. fields. rewrite lastOf_snoc, dropLast_snoc.
    rewrite !copyBoard_id. f_equal. symmetry. by apply lastOf_Some.
  - fields. intros [next Hlast]%lastOf_nonempty.
    unfold Page.handleRedo. fields. rewrite Hlast.
    unfold Page.handleUndo. fields. rewrite lastOf_snoc, dropLast_snoc.
    rewrite !copyBoard_id. f_equal. symmetry. by apply lastOf_Some.
Qed.

Lemma undo_redo_inverse_witness :
  Page.handleRedo
    (Page.handleUndo (Page.handleCellChange
                        (Page.startGame PUZZLE solvedGrid) 0 2 4))
  = Page.handleCellChange (Page.startGame PUZZLE solvedGrid) 0 2 4.
Proof.
  apply (undo_redo_inverse
           (Page.handleCellChange (Page.startGame PUZZLE solvedGrid) 0 2 4)).
  vm_compute. discriminate.
Defined.




(** ** The givens of the puzzle are never overwritten *)

Lemma cell_setCell_other (b : Board) (r c r' c' : nat) (v : CellValue) :
  ~ (r' = r /\ c' = c) -> cell (setCell b r c v) r' c' = cell b r' c'.
Proof.
  intros Hne. unfold cell, setCell.
  destruct (b !! r) as [cells|] eqn:Hrow; [|done].
  destruct (decide (r' = r)) as [->|Hr].
  - rewrite list_lookup_insert_eq by by eapply lookup_lt_Some.
    rewrite Hrow. apply list_lookup_insert_ne. intros ->. tauto.
  - by rewrite list_lookup_insert_ne.
Qed.

Lemma isGiven_buildGivenMask (puz : Board) (r c : nat) :
  Page.isGiven (Page.buildGivenMask puz) r c = true
  <-> exists v, cell puz r c = Some v /\ v <> 0.
Proof.
  unfold Page.isGiven, Page.buildGivenMask, cell.
  rewrite list_lookup_fmap. destruct (puz !! r) as [cells|]; cbn.
  - rewrite list_lookup_fmap. destruct (cells !! c) as [v|]; cbn.
    + rewrite negb_true_iff, bool_decide_eq_false. split.
      * intros Hv. by exists v.
      * by intros (v' & [= <-] & Hv).
    + split; [done|]. by intros (v & ? & _).
  - split; [done|]. by intros (v & ? & _).
Qed.

Section Givens.
Variable puz : Board.

(** A board that still holds every given of the puzzle. *)
Let Keeps (b : Board) : Prop :=
  forall r c v, cell puz r c = Some v -> v <> 0 -> cell b r c = Some v.

Let Safe (st : Page.State) : Prop :=
  Page.givenMask st = Page.buildGivenMask puz
  /\ Keeps (Page.board st)
  /\ Forall Keeps (Page.undoStack st)
  /\ Forall Keeps (Page.redoStack st).

Lemma Keeps_setCell (mask : list (list bool)) (b : Board) (r c : nat)
    (v : CellValue) :
  mask = Page.buildGivenMask puz -> Page.isGiven mask r c = false ->
  Keeps b -> Keeps (setCell (map (fun x => x) b) r c v).
Proof.
  intros -> Hfree Hb r' c' w Hw Hnz. rewrite map_id.
  rewrite cell_setCell_other; [by apply Hb|].
  intros [-> ->]. apply not_true_iff_false in Hfree. apply Hfree.
  apply isGiven_buildGivenMask. by exists w.
Qed.

Lemma Safe_push (st : Page.State) sol sel (b' : Board) (m h : Z) :
  Safe st -> Keeps b' ->
  Safe (Page.mkState sol (Page.givenMask st) b' sel
          (Page.undoStack st ++ [Page.copyBoard (Page.board st)]) [] m h).
Proof.
  intros (Hmask & Hb & Hu & Hr) Hb'. split; [done|]. split; [done|].
  split; [|constructor]. apply Forall_app. split; [done|].
  constructor; [|constructor]. by rewrite copyBoard_id.
Qed.

Lemma handleCellChange_Safe (st : Page.State) (r c : nat) (v : CellValue) :
  Safe st -> Safe (Page.handleCellChange st r c v).
Proof.
  intros Hst. unfold Page.handleCellChange.
  destruct (Page.isGiven _ r c) eqn:Hgiven; [done|].
  destruct (_ && _); [done|]. apply Safe_push; [done|].
  eapply Keeps_setCell; [apply Hst|done|apply Hst].
Qed.

Lemma Keeps_last (l : list Board) (b : Board) :
  Forall Keeps l -> Page.lastOf l = Some b ->
  Keeps b /\ Forall Keeps (Page.dropLast l).
Proof.
  intros Hl Hlast. rewrite (lastOf_Some l b Hlast) in Hl.
  apply Forall_app in Hl as [Hinit Hb]. split; [|done].
  by apply Forall_cons in Hb as [Hb _].
Qed.

Lemma step_Safe (st : Page.State) (a : Page.Action) :
  Safe st -> Safe (Page.step st a).
Proof.
  intros Hst. pose proof Hst as (Hmask & Hb & Hu & Hr).
  destruct a as [r c v| | | | |d|pos|key]; cbn [Page.step].
  - by apply handleCellChange_Safe.
  - unfold Page.handleUndo.
    destruct (Page.lastOf (Page.undoStack st)) as [prev|] eqn:Hlast;
      [|done].
    destruct (Keeps_last _ _ Hu Hlast) as [Hprev Hinit].
    split; [done|]. split; [by rewrite copyBoard_id|]. split; [done|].
    fields. apply Forall_app. split; [done|].
    constructor; [|constructor]. by rewrite copyBoard_id.
  - unfold Page.handleRedo.
    destruct (Page.lastOf (Page.redoStack st)) as [next|] eqn:Hlast;
      [|done].
    destruct (Keeps_last _ _ Hr Hlast) as [Hnext Hinit].
    split; [done|]. split; [by rewrite copyBoard_id|]. split; [|done].
    fields. apply Forall_app. split; [done|].
    constructor; [|constructor]. by rewrite copyBoard_id.
  - unfold Page.handleErase.
    destruct (Page.selectedCell st) as [sel|]; [|done].
    destruct (Page.isGiven _ _ _) eqn:Hgiven; [done|].
    apply Safe_push; [done|]. by eapply Keeps_setCell.
  - unfold Page.handleHint. case_bool_decide; [done|].
    destruct (Page.selectedCell st) as [sel|]; [|done].
    destruct (Page.solution st) as [sol|] eqn:Hsol; [|done].
    destruct (Page.isGiven _ _ _) eqn:Hgiven; [done|].
    destruct (negb _); [done|].
    destruct (cell sol _ _); [|done].
    apply Safe_push; [done|]. by eapply Keeps_setCell.
  - unfold Page.handleNumberPad.
    destruct (Page.selectedCell st) as [sel|]; [|done].
    destruct (Page.maxMistakesReached st); [done|].
    by apply handleCellChange_Safe.
  - done.
  - done.
Qed.

Lemma run_Safe (actions : list Page.Action) :
  forall st, Safe st -> Safe (Page.run st actions).
Proof.
  induction actions as [|a actions IH]; intros st Hst; [done|].
  cbn. apply IH. by apply step_Safe.
Qed.

Lemma startGame_Safe (sol : Board) : Safe (Page.startGame puz sol).
Proof.
  split; [done|]. split; [|split; constructor].
  intros r c v Hv _. cbn. by rewrite copyBoard_id.
Qed.
End Givens.

(** X22: whatever the player does after a puzzle is loaded - cell changes,
    erases, hints, number-pad presses, undos, redos, selections, keys -
    every given of the puzzle is still in its cell of the board, and the
    mask of givens is unchanged. *)
Theorem givens_never_change (puz sol : Board)
    (actions : list Page.Action) (r c : nat) (v : CellValue) :
  cell puz r c = Some v -> v <> 0 ->
  cell (Page.board (Page.run (Page.startGame puz sol) actions)) r c = Some v
  /\ Page.givenMask (Page.run (Page.startGame puz sol) actions)
     = Page.buildGivenMask puz.
Proof.
  intros Hv Hnz.
  destruct (run_Safe puz actions _ (startGame_Safe puz sol))
    as (Hmask & Hb & _).
  split; [by apply Hb|done].
Qed.

Lemma givens_never_change_witness :
  cell (Page.board (Page.run (Page.startGame PUZZLE solvedGrid)
          [Page.SelectCell (mkPosition 0 0); Page.NumberPad 9;
           Page.Erase; Page.CellChange 0 0 1; Page.Undo])) 0 0 = Some 5
  /\ Page.givenMask (Page.run (Page.startGame PUZZLE solvedGrid)
          [Page.SelectCell (mkPosition 0 0); Page.NumberPad 9;
           Page.Erase; Page.CellChange 0 0 1; Page.Undo])
     = Page.buildGivenMask PUZZLE.
Proof.
  apply (givens_never_change PUZZLE solvedGrid); [reflexivity|lia].
Defined.

(** ** Mistakes and hints *)

Lemma step_counters (st : Page.State) (a : Page.Action) :
  Page.mistakes st <= Page.mistakes (Page.step st a)
                   <= Z.max (Page.mistakes st) Page.MAX_MISTAKES
  /\ Z.min (Page.hintsLeft st) 0 <= Page.hintsLeft (Page.step st a)
                                 <= Page.hintsLeft st.
Proof.
  assert (forall r c v,
    Page.mistakes st <= Page.mistakes (Page.handleCellChange st r c v)
                     <= Z.max (Page.mistakes st) Page.MAX_MISTAKES
    /\ Page.hintsLeft (Page.handleCellChange st r c v) = Page.hintsLeft st)
    as Hchange.
  { intros r c v. unfold Page.handleCellChange.
    destruct (Page.isGiven _ r c); [lia|].
    unfold Page.maxMistakesReached.
    case_bool_decide as Hmax; case_bool_decide as Hzero;
      cbn [negb andb]; fields; try lia.
    destruct (match Page.solution st with Some _ => _ | None => _ end);
      lia. }
  destruct a as [r c v| | | | |d|pos|key]; cbn [Page.step].
  - destruct (Hchange r c v) as [? ->]. lia.
  - unfold Page.handleUndo. destruct (Page.lastOf _); fields; lia.
  - unfold Page.handleRedo. destruct (Page.lastOf _); fields; lia.
  - unfold Page.handleErase. destruct (Page.selectedCell st); [|lia].
    destruct (Page.isGiven _ _ _); fields; lia.
  - unfold Page.handleHint. case_bool_decide; [lia|].
    destruct (Page.selectedCell st); [|lia].
    destruct (Page.solution st) as [sol|]; [|lia].
    destruct (Page.isGiven _ _ _); [lia|].
    destruct (negb _); [lia|].
    destruct (cell sol _ _); fields; lia.
  - unfold Page.handleNumberPad. destruct (Page.selectedCell st); [|lia].
    destruct (Page.maxMistakesReached st); [lia|].
    destruct (Hchange (row p) (col p) d) as [? ->]. lia.
  - fields. lia.
  - unfold Page.onKeyDown. fields. lia.
Qed.

(** X23: over any sequence of actions the mistake counter never goes
    down and never passes the larger of its start value and 3, and the
    hint counter never goes up and never drops below 0 when it started
    at 0 or more; a game started by [startGame] keeps both within 0..3. *)
Theorem counters_bounded (actions : list Page.Action) (st : Page.State) :
  (Page.mistakes st <= Page.mistakes (Page.run st actions)
                    <= Z.max (Page.mistakes st) Page.MAX_MISTAKES
   /\ Z.min (Page.hintsLeft st) 0 <= Page.hintsLeft (Page.run st actions)
                                  <= Page.hintsLeft st)
  /\ forall puz sol,
       0 <= Page.mistakes (Page.run (Page.startGame puz sol) actions) <= 3
       /\ 0 <= Page.hintsLeft (Page.run (Page.startGame puz sol) actions)
            <= 3.
Proof.
  assert (forall st,
    Page.mistakes st <= Page.mistakes (Page.run st actions)
                     <= Z.max (Page.mistakes st) Page.MAX_MISTAKES
    /\ Z.min (Page.hintsLeft st) 0 <= Page.hintsLeft (Page.run st actions)
                                   <= Page.hintsLeft st) as Hrun.
  { induction actions as [|a actions IH]; intros st0; [cbn; lia|].
    cbn [Page.run fold_left]. fold (Page.run (Page.step st0 a) actions).
    pose proof (step_counters st0 a). pose proof (IH (Page.step st0 a)).
    lia. }
  split; [apply Hrun|]. intros puz sol.
  pose proof (Hrun (Page.startGame puz sol)) as H. cbn in H.
  unfold Page.MAX_MISTAKES, Page.MAX_HINTS in H. lia.
Qed.

(** ** Keys *)

Lemma inGrid_cellNumbered (k : nat) :
  (k < 81)%nat -> inGrid (cellNumbered k).
Proof.
  intros Hk. split; cbn [row col cellNumbered]; unfold GRID_SIZE.
  - apply Nat.Div0.div_lt_upper_bound. lia.
  - apply Nat.mod_upper_bound. lia.
Qed.

Lemma findNextEmptyCell_found (b : Board) (fromRow fromCol : Z) :
  0 <= fromRow <= 8 -> -1 <= fromCol <= 8 ->
  match Page.findNextEmptyCell b fromRow fromCol with
  | Some p => inGrid p /\ cellAt b p = Some 0
  | None => findEmptyCell b = None
  end.
Proof.
  intros Hr Hc. rewrite findNextEmptyCell_start by done.
  pose proof (scanCells_cyclic b 81 _
                (Nat.mod_upper_bound
                   (Z.to_nat (9 * fromRow + fromCol + 1)) 81 ltac:(lia)))
    as Hscan.
  pose proof (scanCells_cyclic b 81 0 ltac:(lia)) as Hzero.
  destruct (Page.scanCells b 81 (loopAt (_ mod 81))) as [p|].
  - destruct Hscan as (j & _ & -> & Hp & _). split; [|done].
    apply inGrid_cellNumbered, Nat.mod_upper_bound. lia.
  - destruct (findEmptyCell b) as [q|] eqn:Hfind; [|done]. exfalso.
    apply findEmptyCell_Some in Hfind as [Hq Hcell].
    pose proof (cellNumbered_index q Hq) as Hnum.
    pose proof (Nat.mod_upper_bound
                  (Z.to_nat (9 * fromRow + fromCol + 1)) 81 ltac:(lia)).
    set (kk := (Z.to_nat (9 * fromRow + fromCol + 1) mod 81)%nat) in *.
    destruct Hq as [Hqr Hqc]. unfold GRID_SIZE in *.
    set (idx := (9 * row q + col q)%nat) in *.
    destruct (decide (kk <= idx)%nat) as [Hle|Hgt].
    + specialize (Hscan (idx - kk)%nat ltac:(lia)).
      replace (kk + (idx - kk))%nat with idx in Hscan by lia.
      rewrite Nat.mod_small, Hnum in Hscan by lia. done.
    + specialize (Hscan (idx + 81 - kk)%nat ltac:(lia)).
      replace (kk + (idx + 81 - kk))%nat with (idx + 1 * 81)%nat in Hscan
        by lia.
      rewrite Nat.Div0.mod_add, Nat.mod_small, Hnum in Hscan by lia. done.
Qed.

(** X24: a key press changes nothing but the selection; from no selection
    or a selection inside the grid it leaves a selection inside the grid,
    and after Tab on a board with an empty cell the selected cell is
    empty. *)
Theorem onKeyDown_selection (st : Page.State) (key : Page.Key) :
  (forall p, Page.selectedCell st = Some p -> inGrid p) ->
  Page.board (Page.onKeyDown st key) = Page.board st
  /\ Page.undoStack (Page.onKeyDown st key) = Page.undoStack st
  /\ Page.redoStack (Page.onKeyDown st key) = Page.redoStack st
  /\ (forall p, Page.selectedCell (Page.onKeyDown st key) = Some p ->
        inGrid p)
  /\ (key = Page.Tab -> findEmptyCell (Page.board st) <> None ->
      exists p, Page.selectedCell (Page.onKeyDown st key) = Some p
                /\ cellAt (Page.board st) p = Some 0).
Proof.
  intros Hsel. split; [done|]. split; [done|]. split; [done|].
  assert (match Page.selectedCell st with
          | Some sel =>
              Page.findNextEmptyCell (Page.board st) (Z.of_nat (row sel))
                                     (Z.of_nat (col sel))
          | None => Page.findFirstEmptyCell (Page.board st)
          end
          = None -> findEmptyCell (Page.board st) = None) as Hnone.
  { destruct (Page.selectedCell st) as [sel|] eqn:Hs.
    - destruct (Hsel sel eq_refl) as [Hr Hc]. unfold GRID_SIZE in *.
      pose proof (findNextEmptyCell_found (Page.board st)
                    (Z.of_nat (row sel)) (Z.of_nat (col sel))
                    ltac:(lia) ltac:(lia)) as Hfound.
      intros Heq. by rewrite Heq in Hfound.
    - pose proof (findNextEmptyCell_found (Page.board st) 0 (-1)
                    ltac:(lia) ltac:(lia)) as Hfound.
      unfold Page.findFirstEmptyCell. intros Heq.
      by rewrite Heq in Hfound. }
  assert (forall p,
          match Page.selectedCell st with
          | Some sel =>
              Page.findNextEmptyCell (Page.board st) (Z.of_nat (row sel))
                                     (Z.of_nat (col sel))
          | None => Page.findFirstEmptyCell (Page.board st)
          end
          = Some p -> inGrid p /\ cellAt (Page.board st) p = Some 0)
    as Hsome.
  { intros p. destruct (Page.selectedCell st) as [sel|] eqn:Hs.
    - destruct (Hsel sel eq_refl) as [Hr Hc]. unfold GRID_SIZE in *.
      pose proof (findNextEmptyCell_found (Page.board st)
                    (Z.of_nat (row sel)) (Z.of_nat (col sel))
                    ltac:(lia) ltac:(lia)) as Hfound.
      intros Heq. by rewrite Heq in Hfound.
    - pose proof (findNextEmptyCell_found (Page.board st) 0 (-1)
                    ltac:(lia) ltac:(lia)) as Hfound.
      unfold Page.findFirstEmptyCell. intros Heq.
      by rewrite Heq in Hfound. }
  split.
  - intros p. unfold Page.onKeyDown. fields.
    destruct key.
    1-4: destruct (Page.selectedCell st) as [sel|] eqn:Hs;
      intros Heq; apply (inj Some) in Heq; subst p;
      [|apply inGrid_mk; lia];
      destruct (Hsel sel eq_refl) as [Hr Hc]; unfold GRID_SIZE in *;
      apply inGrid_mk; lia.
    destruct (match Page.selectedCell st with
              | Some _ => _ | None => _ end) as [q|] eqn:Hnext.
    + intros [= <-]. by apply Hsome.
    + apply Hsel.
  - intros -> Hempty. unfold Page.onKeyDown. fields.
    destruct (match Page.selectedCell st with
              | Some _ => _ | None => _ end) as [q|] eqn:Hnext.
    + exists q. split; [done|]. by apply Hsome.
    + by specialize (Hnone eq_refl).
Qed.

Lemma onKeyDown_selection_witness :
  exists p,
    Page.selectedCell
      (Page.onKeyDown (Page.startGame PUZZLE solvedGrid) Page.Tab) = Some p
    /\ cellAt (Page.board (Page.startGame PUZZLE solvedGrid)) p = Some 0.
Proof.
  apply (onKeyDown_selection (Page.startGame PUZZLE solvedGrid) Page.Tab);
    [intros p; vm_compute; discriminate|reflexivity|vm_compute; discriminate].
Defined.

(** ** The puzzle endpoint *)

(** X25: a request without a difficulty is served as a medium one; a
    request whose difficulty is none of easy, medium, hard is refused with
    a 400 and draws nothing from the random source; every other request
    is answered with a puzzle that [hasUniqueSolution] accepts, together
    with the board that [solve] returns for it. *)
Theorem GET_responses (g : Rng) :
  Route.GET None g = Route.GET (Some "medium"%string) g
  /\ (forall q, q <> "easy"%string -> q <> "medium"%string ->
        q <> "hard"%string ->
        Route.GET (Some q) g
        = Some (Route.BadRequest
                  "Invalid difficulty. Use easy, medium, or hard.", g))
  /\ (forall q, q = "easy"%string \/ q = "medium"%string
                \/ q = "hard"%string ->
        exists gp g', Route.GET (Some q) g = Some (Route.Ok gp, g')
          /\ hasUniqueSolution (puzzle gp) = Some true
          /\ solve (puzzle gp) = Some (Some (solution gp))).
Proof.
  split; [|split].
  - unfold Route.GET.
    change (default "medium"%string None) with "medium"%string.
    by change (default "medium"%string (Some "medium"%string))
      with "medium"%string.
  - intros q H1 H2 H3. unfold Route.GET, Route.asDifficulty. cbn [default].
    by rewrite !bool_decide_eq_false_2.
  - intros q Hq.
    assert (exists d, Route.asDifficulty q = Some d) as [d Hd].
    { destruct Hq as [-> | [-> | ->]]; eexists; reflexivity. }
    unfold Route.GET.
    change (default "medium"%string (Some q)) with q. rewrite Hd.
    destruct (generatePuzzle_total d g)
      as (puz & sol & g' & Hgen & Hsol & Hcarved & Hcount).
    rewrite Hgen.
    exists (mkGeneratedPuzzle puz sol), g'. split; [done|].
    cbn [puzzle solution]. split.
    + unfold hasUniqueSolution. by rewrite Hcount.
    + rewrite solve_first. by rewrite (Carved_unique sol puz).
Qed.

Lemma GET_responses_witness :
  Route.GET (Some ""%string) (mkRng (fun n => n) 0)
  = Some (Route.BadRequest
            "Invalid difficulty. Use easy, medium, or hard.",
          mkRng (fun n => n) 0).
Proof.
  apply (GET_responses (mkRng (fun n => n) 0)); discriminate.
Defined.

(** ** The timer display *)

(** X26: for a time below 100 minutes [formatTime] shows exactly five
    characters: the two decimal digits of the minutes, a colon, and the
    two decimal digits of the seconds within the minute. *)
Theorem formatTime_digits (seconds : N) :
  (seconds < 6000)%N ->
  let m := (seconds / 60)%N in
  let s := (seconds mod 60)%N in
  Page.formatTime seconds
  = String (digitChar (m / 10))
      (String (digitChar (m mod 10))
         (String ":"%char
            (String (digitChar (s / 10))
               (String (digitChar (s mod 10)) EmptyString)))).
Proof.
  intros Hlt.
  assert (forallb (fun n =>
            let seconds := N.of_nat n in
            let m := (seconds / 60)%N in
            let s := (seconds mod 60)%N in
            bool_decide
              (Page.formatTime seconds
               = String (digitChar (m / 10))
                   (String (digitChar (m mod 10))
                      (String ":"%char
                         (String (digitChar (s / 10))
                            (String (digitChar (s mod 10)) EmptyString))))))
            (seq 0 (N.to_nat 6000)) = true) as Hall
    by (vm_compute; reflexivity).
  rewrite forallb_forall in Hall.
  specialize (Hall (N.to_nat seconds) ltac:(apply in_seq; lia)).
  cbv zeta in Hall. rewrite N2Nat.id in Hall.
  by apply bool_decide_eq_true in Hall.
Qed.

Lemma formatTime_digits_witness :
  Page.formatTime 75 = "01:15"%string.
Proof.
  apply (formatTime_digits 75). reflexivity.
Defined.
